(** * ctpl thread pool (thirdparty/ctpl/ctpl-std.h): an interleaving model

    The pool is modelled as a labelled transition system.  Every thread
    (a worker running the lambda of [set_thread], a client inside
    [thread_pool::push], the thread that calls [resize] / [stop]) is a
    program counter; one transition is one access to shared state.

    Granularity.
    - [detail::Queue]: each member function is one critical section on the
      queue's own mutex that touches only [q] and [limit_], so it is one
      transition.  [Queue::push] is two: the test-and-wait-or-append, and
      the append after the wait has been notified.
    - [thread_pool::mutex]: the worker keeps it across the evaluation of the
      wait predicate (a queue pop, a read of [isDone], a read of its flag),
      so the holder is part of the state and each access is a transition.
    - [isStop], [threads] and [flags] are read and written only by the thread
      that calls [resize] / [stop] ("should be called from one thread"), so
      the model has one such thread, the manager, and takes its reads of
      these fields together with the statement that follows them.
    - Condition variables have no spurious wake-ups in the model; every
      behaviour shown here is therefore a behaviour of the C++ code.
    - [ValueTracker] has no influence on the pool; it is modelled on its own,
      and [tstep] runs it beside the pool.  The pointer plumbing ([new] /
      [delete] / [unique_ptr]) is left out: a task is a value with an
      identity. *)

From stdpp Require Import base numbers option list.
From Stdlib Require Import Floats.PrimFloat Numbers.Cyclic.Int63.Uint63.

Set Default Proof Using "Type".
Local Open Scope Z_scope.

(** ** Tasks and result channels *)

(** What a [std::packaged_task] stores in its shared state when invoked. *)
Inductive outcome :=
| Value (v : Z)
| Failure (e : Z).

(** A queued [std::function<void(int)> *]: the identity of the allocation and
    the user's callable, applied to the index of the executing thread. *)
Record task := Task { tid : nat; body : Z → outcome }.

(** ** Program counters *)

(** The worker lambda of [set_thread] (lines 274-298). *)
Inductive wloc :=
| W_pop                       (* 278 / 286: isPop = q.pop(_f) *)
| W_exec (t : task)           (* 282: ( *_f)(i) *)
| W_flag                      (* 283: if (_flag) return *)
| W_lock                      (* 289-290: lock(mutex); ++nWaiting *)
| W_pred_pop                  (* 292: isPop = q.pop(_f) *)
| W_pred_done                 (* 292: || isDone *)
| W_pred_flag                 (* 292: || _flag, else wait *)
| W_wait                      (* blocked in cv.wait, mutex released *)
| W_woken                     (* notified, re-acquiring mutex *)
| W_dec (r : option task)     (* 293-296: --nWaiting; if (!isPop) return *)
| W_exit.                     (* the thread function has returned *)

Record worker := Worker {
  widx : Z;          (* the captured index i *)
  wflag : bool;      (* the shared atomic<bool> behind flags[i] *)
  wdet : bool;       (* detach() was called on the std::thread *)
  wat : wloc }.

(** A client inside [thread_pool::push] (lines 252-261). *)
Inductive ploc :=
| P_start (t : task)          (* 257 -> Queue::push 96-97 *)
| P_qwait (t : task)          (* 98: blocked in Queue::cv.wait *)
| P_qwoken (t : task)         (* notified, 100: q.push(value) *)
| P_notify                    (* 258-259: lock(mutex); cv.notify_one() *)
| P_ret.                      (* 260 *)

(** The thread that calls [resize] (156-182) and [stop] (205-233). *)
Inductive mloc :=
| M_idle
| R_start (n : Z)             (* 157-167 *)
| R_shrink (i n : Z)          (* 169-172 *)
| R_notify (n : Z)            (* 173-179 *)
| S_start (isWait : bool)     (* 206-209 / 216-218 *)
| S_flags (i n : Z)           (* 210-212 *)
| S_clear1                    (* 213 *)
| S_notify                    (* 220-223 *)
| S_join (i : Z)              (* 224-227 *)
| S_clear2.                   (* 230-232 *)

(** ** The shared state *)

Record state := State {
  q : list task;                     (* Queue::q, head first *)
  limit_ : N;                        (* Queue::limit_ (uint32_t) *)
  threads : list nat;                (* thread_pool::threads *)
  flags : list nat;                  (* thread_pool::flags *)
  isDone : bool;
  isStop : bool;
  nWaiting : Z;
  mutex : option nat;                (* holder of thread_pool::mutex *)
  workers : list worker;             (* every thread ever started *)
  pushers : list ploc;               (* every call of push ever entered *)
  mgr : mloc;
  next_id : nat;                     (* allocation counter for tasks *)
  chan : list (nat * outcome);       (* fulfilled result channels *)
  destroyed : list nat }.            (* tasks deleted by clear_queue *)

Definition with_q x s := State x (limit_ s) (threads s) (flags s) (isDone s)
  (isStop s) (nWaiting s) (mutex s) (workers s) (pushers s) (mgr s)
  (next_id s) (chan s) (destroyed s).
Definition with_limit x s := State (q s) x (threads s) (flags s) (isDone s)
  (isStop s) (nWaiting s) (mutex s) (workers s) (pushers s) (mgr s)
  (next_id s) (chan s) (destroyed s).
Definition with_threads x s := State (q s) (limit_ s) x (flags s) (isDone s)
  (isStop s) (nWaiting s) (mutex s) (workers s) (pushers s) (mgr s)
  (next_id s) (chan s) (destroyed s).
Definition with_flags x s := State (q s) (limit_ s) (threads s) x (isDone s)
  (isStop s) (nWaiting s) (mutex s) (workers s) (pushers s) (mgr s)
  (next_id s) (chan s) (destroyed s).
Definition with_isDone x s := State (q s) (limit_ s) (threads s) (flags s) x
  (isStop s) (nWaiting s) (mutex s) (workers s) (pushers s) (mgr s)
  (next_id s) (chan s) (destroyed s).
Definition with_isStop x s := State (q s) (limit_ s) (threads s) (flags s)
  (isDone s) x (nWaiting s) (mutex s) (workers s) (pushers s) (mgr s)
  (next_id s) (chan s) (destroyed s).
Definition with_nWaiting x s := State (q s) (limit_ s) (threads s) (flags s)
  (isDone s) (isStop s) x (mutex s) (workers s) (pushers s) (mgr s)
  (next_id s) (chan s) (destroyed s).
Definition with_mutex x s := State (q s) (limit_ s) (threads s) (flags s)
  (isDone s) (isStop s) (nWaiting s) x (workers s) (pushers s) (mgr s)
  (next_id s) (chan s) (destroyed s).
Definition with_workers x s := State (q s) (limit_ s) (threads s) (flags s)
  (isDone s) (isStop s) (nWaiting s) (mutex s) x (pushers s) (mgr s)
  (next_id s) (chan s) (destroyed s).
Definition with_pushers x s := State (q s) (limit_ s) (threads s) (flags s)
  (isDone s) (isStop s) (nWaiting s) (mutex s) (workers s) x (mgr s)
  (next_id s) (chan s) (destroyed s).
Definition with_mgr x s := State (q s) (limit_ s) (threads s) (flags s)
  (isDone s) (isStop s) (nWaiting s) (mutex s) (workers s) (pushers s) x
  (next_id s) (chan s) (destroyed s).
Definition with_next_id x s := State (q s) (limit_ s) (threads s) (flags s)
  (isDone s) (isStop s) (nWaiting s) (mutex s) (workers s) (pushers s) (mgr s)
  x (chan s) (destroyed s).
Definition with_chan x s := State (q s) (limit_ s) (threads s) (flags s)
  (isDone s) (isStop s) (nWaiting s) (mutex s) (workers s) (pushers s) (mgr s)
  (next_id s) x (destroyed s).
Definition with_destroyed x s := State (q s) (limit_ s) (threads s) (flags s)
  (isDone s) (isStop s) (nWaiting s) (mutex s) (workers s) (pushers s) (mgr s)
  (next_id s) (chan s) x.

Definition at_ (l : wloc) (w : worker) : worker :=
  Worker (widx w) (wflag w) (wdet w) l.
Definition raise_flag (w : worker) : worker :=
  Worker (widx w) true (wdet w) (wat w).
Definition detach (w : worker) : worker :=
  Worker (widx w) (wflag w) true (wat w).

Definition goto (k : nat) (l : wloc) (s : state) : state :=
  with_workers (alter (at_ l) k (workers s)) s.

(** ** Condition variables *)

Definition is_qwait (p : ploc) : bool :=
  match p with P_qwait _ => true | _ => false end.
Definition is_wait (w : worker) : bool :=
  match wat w with W_wait => true | _ => false end.

(** [Queue::cv.notify_one()]: [j] names the waiter the scheduler picks; with
    no waiter the call does nothing. *)
Definition notify_one_q (j : nat) (ps : list ploc) : option (list ploc) :=
  match ps !! j with
  | Some (P_qwait t) => Some (<[j := P_qwoken t]> ps)
  | _ => if existsb is_qwait ps then None else Some ps
  end.

(** [thread_pool::cv.notify_one()]. *)
Definition notify_one (j : nat) (ws : list worker) : option (list worker) :=
  match ws !! j with
  | Some w =>
      if is_wait w then Some (<[j := at_ W_woken w]> ws)
      else if existsb is_wait ws then None else Some ws
  | None => if existsb is_wait ws then None else Some ws
  end.

Definition wake (w : worker) : worker :=
  if is_wait w then at_ W_woken w else w.

(** [thread_pool::cv.notify_all()]. *)
Definition notify_all (ws : list worker) : list worker := wake <$> ws.

(** ** detail::Queue *)

(** [Queue::pop] (104-112): [None] is the [false] return. *)
Definition Queue_pop (j : nat) (s : state) : option (option task * state) :=
  match q s with
  | [] => Some (None, s)
  | t :: r =>
      ps ← notify_one_q j (pushers s);
      Some (Some t, with_pushers ps (with_q r s))
  end.

(** [Queue::push] up to the wait (95-99): [inl] is the caller blocked in
    [cv.wait], [inr] the queue after [q.push(value)]. *)
Definition Queue_push (t : task) (s : state) : unit + state :=
  if (limit_ s <=? N.of_nat (length (q s)))%N then inl ()
  else inr (with_q (q s ++ [t]) s).

(** [Queue::set_limit] (117-120). *)
Definition set_limit (limit : N) (s : state) : state := with_limit limit s.

(** ** Workers *)

Definition worker_step (k j : nat) (s : state) : option state :=
  w ← workers s !! k;
  match wat w with
  | W_pop =>
      '(r, s') ← Queue_pop j s;
      Some (goto k (match r with Some t => W_exec t | None => W_lock end) s')
  | W_exec t =>
      Some (goto k W_flag (with_chan (chan s ++ [(tid t, body t (widx w))]) s))
  | W_flag =>
      Some (goto k (if wflag w then W_exit else W_pop) s)
  | W_lock =>
      match mutex s with
      | None => Some (goto k W_pred_pop
                  (with_nWaiting (nWaiting s + 1) (with_mutex (Some k) s)))
      | Some _ => None
      end
  | W_pred_pop =>
      '(r, s') ← Queue_pop j s;
      Some (goto k (match r with Some t => W_dec (Some t) | None => W_pred_done end) s')
  | W_pred_done =>
      Some (goto k (if isDone s then W_dec None else W_pred_flag) s)
  | W_pred_flag =>
      if wflag w then Some (goto k (W_dec None) s)
      else Some (goto k W_wait (with_mutex None s))
  | W_wait => None
  | W_woken =>
      match mutex s with
      | None => Some (goto k W_pred_pop (with_mutex (Some k) s))
      | Some _ => None
      end
  | W_dec r =>
      Some (goto k (match r with Some t => W_exec t | None => W_exit end)
              (with_nWaiting (nWaiting s - 1) (with_mutex None s)))
  | W_exit => None
  end.

(** ** thread_pool::push *)

Definition at_p (k : nat) (l : ploc) (s : state) : state :=
  with_pushers (<[k := l]> (pushers s)) s.

Definition pusher_step (k j : nat) (s : state) : option state :=
  p ← pushers s !! k;
  match p with
  | P_start t =>
      match Queue_push t s with
      | inl _ => Some (at_p k (P_qwait t) s)
      | inr s' => Some (at_p k P_notify s')
      end
  | P_qwait _ => None
  | P_qwoken t => Some (at_p k P_notify (with_q (q s ++ [t]) s))
  | P_notify =>
      match mutex s with
      | None => ws ← notify_one j (workers s);
                Some (at_p k P_ret (with_workers ws s))
      | Some _ => None
      end
  | P_ret => None
  end.

(** ** thread_pool::resize and thread_pool::stop *)

Definition size (s : state) : Z := Z.of_nat (length (threads s)).

(** Lines 164-165 for one [i]: a fresh flag and a fresh thread in slot [i]. *)
Definition set_thread (i : Z) (s : state) : state :=
  let id := length (workers s) in
  with_workers (workers s ++ [Worker i false false W_pop])
    (with_threads (threads s ++ [id]) (with_flags (flags s ++ [id]) s)).

(** The loop of lines 163-166, [cnt] iterations from index [i]. *)
Fixpoint grow (cnt : nat) (i : Z) (s : state) : state :=
  match cnt with
  | O => s
  | S c => grow c (i + 1) (set_thread i s)
  end.

Definition mgr_step (j : nat) (s : state) : option state :=
  match mgr s with
  | M_idle => None
  | R_start n =>
      if isStop s || isDone s then Some (with_mgr M_idle s)
      else
        let old := size s in
        if old <=? n then
          Some (with_mgr M_idle (grow (Z.to_nat (n - old)) old s))
        else Some (with_mgr (R_shrink (old - 1) n) s)
  | R_shrink i n =>
      if n <=? i then
        if i <? 0 then None
        else
          f ← flags s !! Z.to_nat i;
          t ← threads s !! Z.to_nat i;
          Some (with_mgr (R_shrink (i - 1) n)
                  (with_workers
                     (alter detach t (alter raise_flag f (workers s))) s))
      else Some (with_mgr (R_notify n) s)
  | R_notify n =>
      match mutex s with
      | None =>
          Some (with_mgr M_idle
                  (with_flags (take (Z.to_nat n) (flags s))
                     (with_threads (take (Z.to_nat n) (threads s))
                        (with_workers (notify_all (workers s)) s))))
      | Some _ => None
      end
  | S_start isWait =>
      if isWait then
        if isDone s || isStop s then Some (with_mgr M_idle s)
        else Some (with_mgr S_notify (with_isDone true s))
      else
        if isStop s then Some (with_mgr M_idle s)
        else Some (with_mgr (S_flags 0 (size s)) (with_isStop true s))
  | S_flags i n =>
      if i <? n then
        if i <? 0 then None
        else
          f ← flags s !! Z.to_nat i;
          Some (with_mgr (S_flags (i + 1) n)
                  (with_workers (alter raise_flag f (workers s)) s))
      else Some (with_mgr S_clear1 s)
  | S_clear1 =>
      '(r, s') ← Queue_pop j s;
      match r with
      | Some t => Some (with_destroyed (destroyed s' ++ [tid t]) s')
      | None => Some (with_mgr S_notify s')
      end
  | S_notify =>
      match mutex s with
      | None => Some (with_mgr (S_join 0)
                        (with_workers (notify_all (workers s)) s))
      | Some _ => None
      end
  | S_join i =>
      if i <? size s then
        if i <? 0 then None
        else
          t ← threads s !! Z.to_nat i;
          w ← workers s !! t;
          if wdet w then Some (with_mgr (S_join (i + 1)) s)
          else
            match wat w with
            | W_exit => Some (with_mgr (S_join (i + 1)) s)
            | _ => None
            end
      else Some (with_mgr S_clear2 s)
  | S_clear2 =>
      '(r, s') ← Queue_pop j s;
      match r with
      | Some t => Some (with_destroyed (destroyed s' ++ [tid t]) s')
      | None => Some (with_mgr M_idle (with_flags [] (with_threads [] s')))
      end
  end.

(** ** The transition system *)

Inductive call :=
| Resize (nThreads : Z)
| Stop (isWait : bool).

Inductive label :=
| L_worker (k j : nat)        (* worker [k] runs one statement *)
| L_pusher (k j : nat)        (* the [k]-th call of push runs one statement *)
| L_mgr (j : nat)             (* the manager runs one statement *)
| L_push (f : Z → outcome)    (* a client enters thread_pool::push(f) *)
| L_call (c : call).          (* the manager enters resize / stop *)

Definition enter (c : call) (s : state) : option state :=
  match mgr s with
  | M_idle =>
      match c with
      | Resize n => if 0 <=? n then Some (with_mgr (R_start n) s) else None
      | Stop b => Some (with_mgr (S_start b) s)
      end
  | _ => None
  end.

Definition push (f : Z → outcome) (s : state) : state :=
  with_next_id (S (next_id s))
    (with_pushers (pushers s ++ [P_start (Task (next_id s) f)]) s).

Definition step (l : label) (s : state) : option state :=
  match l with
  | L_worker k j => worker_step k j s
  | L_pusher k j => pusher_step k j s
  | L_mgr j => mgr_step j s
  | L_push f => Some (push f s)
  | L_call c => enter c s
  end.

Fixpoint run (tr : list label) (s : state) : option state :=
  match tr with
  | [] => Some s
  | l :: tr' => s' ← step l s; run tr' s'
  end.

(** ** Construction *)

(** The member initialisers and [init()] (302-305); this is [thread_pool()]. *)
Definition init : state :=
  State [] 0%N [] [] false false 0 None [] [] M_idle 0%nat [] [].

(** [thread_pool(int nThreads)] (134-139).  No other thread has the object
    yet, and the workers it starts do not read what the constructor still
    writes, so the constructor is taken as a whole. *)
Definition thread_pool (nThreads : Z) : option state :=
  s ← mgr_step 0 (with_mgr (R_start nThreads) init);
  match mgr s with
  | M_idle => Some (set_limit 1 s)
  | _ => None
  end.

Definition constructed (s : state) : Prop :=
  s = init ∨ ∃ n, thread_pool n = Some s.

Definition reachable (s : state) : Prop :=
  ∃ s0 tr, constructed s0 ∧ run tr s0 = Some s.

(** Labels of the threads that already exist: no new call is entered. *)
Definition internal (l : label) : bool :=
  match l with
  | L_worker _ _ | L_pusher _ _ | L_mgr _ => true
  | _ => false
  end.

(** ** Scenarios *)

Definition ident : Z → outcome := Value.

(** Three clients and one worker on a pool built by [thread_pool(1)]: the
    second client blocks on the full queue, the worker's pop notifies it,
    the third client appends before the second one runs again. *)
Definition overflow_trace : list label :=
  [L_push ident; L_pusher 0 0; L_push ident; L_pusher 1 0;
   L_worker 0 1; L_push ident; L_pusher 2 0; L_pusher 1 0]%nat.

(** [std::future::get] on the handle returned for task [id]: the value or
    failure stored by the invocation, [None] while unfulfilled. *)
Definition future_get (id : nat) (s : state) : option outcome :=
  (λ r, snd (snd r)) <$> list_find (λ e, fst e = id) (chan s).

(** ** Invariants of the reachable states *)

(** Locations at which a worker holds [thread_pool::mutex]. *)
Definition holding (l : wloc) : bool :=
  match l with
  | W_pred_pop | W_pred_done | W_pred_flag | W_dec _ => true
  | _ => false
  end.

(** The mutex field names its holder, and only a worker inside the wait
    predicate (or just past it) holds it. *)
Definition mutex_ok (s : state) : Prop :=
  (∀ k w, workers s !! k = Some w →
          (holding (wat w) = true ↔ mutex s = Some k)) ∧
  (∀ k, mutex s = Some k → (k < length (workers s))%nat).

(** Where every task is: not yet appended, queued, claimed by a worker,
    run, or deleted by [clear_queue].  [occ x s] counts the places that hold
    the task with identity [x]. *)
Definition hit (x y : nat) : nat := if decide (x = y) then 1 else 0.

Definition phit (x : nat) (p : ploc) : nat :=
  match p with
  | P_start t | P_qwait t | P_qwoken t => hit x (tid t)
  | _ => 0
  end.

Definition whit (x : nat) (w : worker) : nat :=
  match wat w with
  | W_exec t | W_dec (Some t) => hit x (tid t)
  | _ => 0
  end.

Definition n_pending (x : nat) (s : state) : nat :=
  sum_list_with (phit x) (pushers s).
Definition n_queued (x : nat) (s : state) : nat :=
  sum_list_with (λ t, hit x (tid t)) (q s).
Definition n_held (x : nat) (s : state) : nat :=
  sum_list_with (whit x) (workers s).
(** How many times task [x] has been invoked. *)
Definition n_ran (x : nat) (s : state) : nat :=
  sum_list_with (λ e, hit x (fst e)) (chan s).
(** How many times task [x] has been deleted without being invoked. *)
Definition n_destroyed (x : nat) (s : state) : nat :=
  sum_list_with (hit x) (destroyed s).

Definition occ (x : nat) (s : state) : nat :=
  (n_pending x s + n_queued x s + n_held x s + n_ran x s + n_destroyed x s)%nat.

Definition ids_ok (s : state) : Prop :=
  ∀ x, (occ x s ≤ 1)%nat ∧ ((next_id s ≤ x)%nat → occ x s = 0%nat).

(** The slots of [threads] below [live s] hold attached threads; the slots
    from [live s] on have been detached by the shrink loop. *)
Definition live (s : state) : nat :=
  match mgr s with
  | R_shrink i _ => Z.to_nat (i + 1)
  | R_notify n => Z.to_nat n
  | _ => length (threads s)
  end.

(** What [stop] has established so far about the worker in slot [j]. *)
Definition slot_ok (s : state) (j : nat) (w : worker) : Prop :=
  match mgr s with
  | S_flags i _ => Z.of_nat j < i → wflag w = true
  | S_clear1 => wflag w = true
  | S_notify => isDone s = true ∨ wflag w = true
  | S_join i =>
      (isDone s = true ∨ wflag w = true) ∧ wat w ≠ W_wait ∧
      (wat w = W_pred_flag → wflag w = true) ∧
      (Z.of_nat j < i → wat w = W_exit)
  | S_clear2 => wat w = W_exit
  | _ => True
  end.

Definition mgr_ok (s : state) : Prop :=
  match mgr s with
  | R_start n => 0 ≤ n
  | R_shrink i n => 0 ≤ n ∧ n - 1 ≤ i < size s
  | R_notify n => 0 ≤ n ≤ size s
  | S_flags i n => n = size s ∧ 0 ≤ i ∧ isStop s = true
  | S_clear1 => isStop s = true
  | S_join i => 0 ≤ i
  | _ => True
  end.

(** Slot [j] holds an attached thread whose flag is still down while the
    pool runs, or a thread the shrink loop has flagged and detached. *)
Definition att_ok (s : state) (j : nat) (w : worker) : Prop :=
  if decide (j < live s)%nat
  then wdet w = false ∧ (isStop s = false → wflag w = false)
  else wdet w = true ∧ wflag w = true.

Definition pool_ok (s : state) : Prop :=
  flags s = threads s ∧ NoDup (threads s) ∧
  (live s ≤ length (threads s))%nat ∧ mgr_ok s ∧
  ∀ j id, threads s !! j = Some id →
    ∃ w, workers s !! id = Some w ∧ att_ok s j w ∧ slot_ok s j w.

(** A worker returns only when the pool drains or its own flag is up. *)
Definition exits_ok (s : state) : Prop :=
  ∀ k w, workers s !! k = Some w →
    wat w = W_dec None ∨ wat w = W_exit →
    isDone s = true ∨ wflag w = true.

(** Calls of push that have appended and not yet notified. *)
Definition n_notify (s : state) : nat :=
  sum_list_with (λ p, match p with P_notify => 1 | _ => 0 end)%nat (pushers s).

(** While a worker is between the failed pop of its wait predicate and the
    wait, it holds the mutex, so whatever is in the queue was appended by a
    call of push that has not yet notified. *)
Definition pred_ok (s : state) : Prop :=
  ∀ k w, workers s !! k = Some w →
    wat w = W_pred_done ∨ wat w = W_pred_flag →
    (length (q s) ≤ n_notify s)%nat.

Definition Inv (s : state) : Prop :=
  mutex_ok s ∧ ids_ok s ∧ pool_ok s ∧ exits_ok s ∧ pred_ok s.

(** ** A bound on the number of transitions *)






(** No thread that exists can run a statement: every call has returned or
    is blocked, every worker has returned or waits. *)
Definition quiescent (s : state) : Prop :=
  ∀ l, internal l = true → step l s = None.

(** The workers started by [grow cnt i]. *)
Fixpoint spawned (cnt : nat) (i : Z) : list worker :=
  match cnt with
  | O => []
  | S c => Worker i false false W_pop :: spawned c (i + 1)
  end.

(** A pool built by [thread_pool(0)]: [stop(true)] runs to its end, then
    [stop(false)] runs to its end. *)
Definition both_stops : list label :=
  [L_call (Stop true); L_mgr 0; L_mgr 0; L_mgr 0; L_mgr 0;
   L_call (Stop false); L_mgr 0; L_mgr 0; L_mgr 0; L_mgr 0; L_mgr 0;
   L_mgr 0]%nat.

Definition always_fails : Z → outcome := λ _, Failure 7.

(** A pool built by [thread_pool(1)] whose worker has claimed a task that
    will fail, with a second task queued behind it. *)
Definition failing_state : state :=
  Eval vm_compute in
    default init
      (s0 ← thread_pool 1;
       run [L_push always_fails; L_pusher 0 0; L_worker 0 0;
            L_push ident; L_pusher 1 0]%nat s0).

(** ** What a call in progress has done so far *)










(** A pool built by [thread_pool(1)] after one push has returned: the task
    is queued, the worker has not yet run its first statement. *)
Definition queued_state : state :=
  Eval vm_compute in
    default init
      (s0 ← thread_pool 1;
       run [L_push ident; L_pusher 0 0; L_pusher 0 0]%nat s0).


(** [stop(false)] on [failing_state]: the queued task is deleted, the
    claimed one runs, the worker returns and is joined. *)
Definition abort_trace : list label :=
  [L_mgr 0; L_mgr 0; L_mgr 0; L_mgr 0; L_mgr 0; L_mgr 0;
   L_worker 0 0; L_worker 0 0; L_mgr 0; L_mgr 0; L_mgr 0]%nat.


Definition returned (p : ploc) : Prop := p = P_ret.



(** [stop(true)] on [queued_state]: the worker runs the task, finds the
    queue empty and the pool draining, and returns; [stop] joins it. *)
Definition drain_trace : list label :=
  [L_mgr 0; L_mgr 0; L_worker 0 0; L_worker 0 0; L_worker 0 0; L_worker 0 0;
   L_worker 0 0; L_worker 0 0; L_worker 0 0; L_worker 0 0;
   L_mgr 0; L_mgr 0; L_mgr 0]%nat.


(** A pool built by [thread_pool(1)]: the worker is inside its wait
    predicate, past the failed pop, and a call of push has appended its task
    and not yet notified. *)
Definition racing_state : state :=
  Eval vm_compute in
    default init
      (s0 ← thread_pool 1;
       run [L_worker 0 0; L_worker 0 0; L_worker 0 0; L_push ident;
            L_pusher 0 0]%nat s0).


(** A pool built by [thread_pool(3)]. *)
Definition pool3 : state := Eval vm_compute in default init (thread_pool 3).


(** ** More about the claims' scenarios *)

(** Labels of the threads other than worker [k], and of new calls. *)
Definition others (k : nat) (l : label) : bool :=
  match l with
  | L_worker k' _ => negb (k' =? k)%nat
  | _ => true
  end.

(** [stop(false)] is entered and raises the flag of the thread in slot 0. *)
Definition flag_raised : list label :=
  [L_call (Stop false); L_mgr 0; L_mgr 0]%nat.

(** [failing_state] after its worker has run the task it had claimed, and
    then after [stop(false)] has raised the worker's flag. *)
Definition ran_state : state :=
  Eval vm_compute in default init (step (L_worker 0 0) failing_state).
Definition flagged_state : state :=
  Eval vm_compute in default init (run flag_raised ran_state).

(** A pool built by [thread_pool(0)] after [stop(true)] has run to its end,
    and a call of [stop(false)] run to its end. *)
Definition draining_state : state :=
  Eval vm_compute in
    default init
      (s0 ← thread_pool 0;
       run [L_call (Stop true); L_mgr 0; L_mgr 0; L_mgr 0; L_mgr 0]%nat s0).

Definition stop_false_call : list label :=
  [L_call (Stop false); L_mgr 0; L_mgr 0; L_mgr 0; L_mgr 0; L_mgr 0;
   L_mgr 0]%nat.






(** ** thread_pool::n_idle and thread_pool::get_thread *)

(** [n_idle()] (150). *)
Definition n_idle (s : state) : Z := nWaiting s.

(** [get_thread(i)] (151): [threads[i]] without a bounds check; [None] is
    an index outside the vector. *)
Definition get_thread (i : Z) (s : state) : option nat :=
  if i <? 0 then None else threads s !! Z.to_nat i.

(** ** detail::ValueTracker *)

(** [static_cast<double>] of a 64-bit tick count. *)
Definition double_of_int (d : Z) : float :=
  if d <? 0 then PrimFloat.opp (PrimFloat.of_uint63 (Uint63.of_Z (- d)))
  else PrimFloat.of_uint63 (Uint63.of_Z d).

(** [duration_cast<duration<double>>] of a difference of two readings of
    [steady_clock], whose ticks are nanoseconds: the count divided by
    [1e9]. *)
Definition seconds (d : Z) : float :=
  PrimFloat.div (double_of_int d) 1e9%float.

Record ValueTracker := Tracker {
  previousValue : Z;
  currentValue : Z;
  previousTime : Z;                  (* steady_clock ticks *)
  previousPrintTime : Z;
  totalTime : float;
  valueTimes : list float }.

(** The constructor (49-51); [now1] and [now2] are its two readings of the
    clock. *)
Definition ValueTracker_new (now1 now2 : Z) : ValueTracker :=
  Tracker 0 0 now1 now2 0%float (resize 64 0%float []).

(** What one round of logging prints (71-75): the 64 per-value times and
    the total. *)
Definition report : Type := list float * float.

(** [updateValue] (53-80).  [now1] is the reading of the clock taken when
    the value has changed, [now2] the one taken for the log.  [None] is an
    access to [valueTimes] outside the vector. *)
Definition updateValue (newValue now1 now2 : Z) (v : ValueTracker) :
    option (ValueTracker * option report) :=
  v1 ← (if newValue =? currentValue v then Some v
        else
          let dt := seconds (now1 - previousTime v) in
          if previousValue v <? 0 then None
          else
            old ← valueTimes v !! Z.to_nat (previousValue v);
            Some (Tracker (currentValue v) newValue now1 (previousPrintTime v)
                    (PrimFloat.add (totalTime v) dt)
                    (<[Z.to_nat (previousValue v) := PrimFloat.add old dt]>
                       (valueTimes v))));
  if PrimFloat.ltb 10%float (seconds (now2 - previousPrintTime v1)) then
    lines ← mapM (λ i, valueTimes v1 !! i) (seq 0 64);
    Some (Tracker (previousValue v1) (currentValue v1) (previousTime v1) now2
            0%float (resize 64 0%float (valueTimes v1)),
          Some (lines, totalTime v1))
  else Some (v1, None).

(** ** The pool with its tracker *)

(** The value a worker passes to [tracker.updateValue] in the transition it
    is about to take (290-291 and 293-294). *)
Definition tracked (l : label) (s : state) : option Z :=
  match l with
  | L_worker k _ =>
      w ← workers s !! k;
      match wat w with
      | W_lock => Some (nWaiting s + 1)
      | W_dec _ => Some (nWaiting s - 1)
      | _ => None
      end
  | _ => None
  end.

(** One transition of the pool together with its tracker; the label comes
    with the two readings of the clock a call of [updateValue] takes. *)
Definition tstep (e : label * (Z * Z)) (st : state * ValueTracker) :
    option (state * ValueTracker) :=
  s' ← step e.1 st.1;
  match tracked e.1 st.1 with
  | Some n => r ← updateValue n e.2.1 e.2.2 st.2; Some (s', r.1)
  | None => Some (s', st.2)
  end.

Fixpoint trun (tr : list (label * (Z * Z))) (st : state * ValueTracker) :
    option (state * ValueTracker) :=
  match tr with
  | [] => Some st
  | e :: tr' => st' ← tstep e st; trun tr' st'
  end.

(** ** More invariants of the reachable states *)

(** Workers between [++nWaiting] and [--nWaiting]. *)
Definition counted (w : worker) : nat :=
  match wat w with
  | W_pred_pop | W_pred_done | W_pred_flag | W_wait | W_woken | W_dec _ => 1
  | _ => 0
  end.

Definition idle_ok (s : state) : Prop :=
  nWaiting s = Z.of_nat (sum_list_with counted (workers s)).

(** Every task handed to [push] so far is in exactly one place. *)
Definition conserved (s : state) : Prop :=
  ∀ x, (x < next_id s)%nat → occ x s = 1%nat.

(** The thread in slot [j] was started with index [j]. *)
Definition index_ok (s : state) : Prop :=
  ∀ j id, threads s !! j = Some id →
    ∃ w, workers s !! id = Some w ∧ widx w = Z.of_nat j.

(** No wake-up is lost: while a worker waits, every queued task has a
    [notify_one] still to come, or a worker on its way to pop. *)
Definition waiting (w : worker) : nat := if is_wait w then 1 else 0.
Definition woken (w : worker) : nat :=
  match wat w with W_woken | W_pred_pop => 1 | _ => 0 end.
Definition n_wait (s : state) : nat := sum_list_with waiting (workers s).
Definition n_woken (s : state) : nat := sum_list_with woken (workers s).

Definition wake_ok (s : state) : Prop :=
  (1 ≤ n_wait s)%nat → (length (q s) ≤ n_notify s + n_woken s)%nat.

(** While a call of push is blocked on a queue with a limit, the queue
    holds a task, or a woken call is about to append one. *)
Definition qwaiting (p : ploc) : nat := if is_qwait p then 1 else 0.
Definition qwoken (p : ploc) : nat :=
  match p with P_qwoken _ => 1 | _ => 0 end.
Definition n_qwait (s : state) : nat := sum_list_with qwaiting (pushers s).
Definition n_qwoken (s : state) : nat := sum_list_with qwoken (pushers s).

Definition qwait_ok (s : state) : Prop :=
  limit_ s ≠ 0%N → (1 ≤ n_qwait s)%nat →
  (1 ≤ length (q s) + n_qwoken s)%nat.

(** A thread that waits with its flag set has a [notify_all] ahead. *)
Definition notify_ahead (m : mloc) : Prop :=
  match m with
  | R_shrink _ _ | R_notify _ | S_flags _ _ | S_clear1 | S_notify => True
  | _ => False
  end.

Definition pending_ok (s : state) : Prop :=
  ∀ k w, workers s !! k = Some w → wat w = W_wait → wflag w = true →
         notify_ahead (mgr s).

(** Tasks are deleted by [stop] only. *)
Definition in_stop (m : mloc) : Prop :=
  match m with
  | S_flags _ _ | S_clear1 | S_notify | S_join _ | S_clear2 => True
  | _ => False
  end.

Definition deleted_ok (s : state) : Prop :=
  isStop s = false → isDone s = false → destroyed s = [] ∧ ¬ in_stop (mgr s).

(** A thread that is no longer in the vector has its flag set or has
    returned. *)
Definition gone_ok (s : state) : Prop :=
  ∀ k w, workers s !! k = Some w →
         k ∈ threads s ∨ wflag w = true ∨ wat w = W_exit.

Definition Inv_ext (s : state) : Prop :=
  idle_ok s ∧ conserved s ∧ index_ok s ∧ wake_ok s ∧ qwait_ok s ∧
  pending_ok s ∧ gone_ok s ∧ deleted_ok s.

(** The tracker beside the pool: it holds the current [nWaiting], and its
    previous value is one [nWaiting] has had. *)
Definition tracker_ok (st : state * ValueTracker) : Prop :=
  length (valueTimes st.2) = 64%nat ∧ currentValue st.2 = nWaiting st.1 ∧
  0 ≤ previousValue st.2 ≤ Z.of_nat (length (workers st.1)).

(** ** More scenarios *)

(** [queued_state] after its worker has run the task and gone to wait. *)
Definition rest_state : state :=
  Eval vm_compute in
    default init (run (replicate 8 (L_worker 0 0)) queued_state).

(** [queued_state] after [stop(true)] has returned. *)
Definition drained_state : state :=
  Eval vm_compute in
    default init (run (L_call (Stop true) :: drain_trace) queued_state).

(** [stop(false)] about to empty a queue of two tasks, with one call of
    push blocked. *)
Definition clearing_state : state :=
  with_mgr S_clear1
    (with_pushers [P_qwait (Task 2 ident)]
       (with_q [Task 0 ident; Task 1 ident] init)).

(** Where the manager is after [clear_queue]. *)
Definition after_clear (m : mloc) : mloc :=
  match m with S_clear1 => S_notify | _ => M_idle end.

(** [resize(n)] from [n + 1] threads, then [resize(n + 1)], the manager
    running alone. *)
Definition shrink_grow (n : Z) : list label :=
  [L_call (Resize n); L_mgr 0; L_mgr 0; L_mgr 0; L_mgr 0;
   L_call (Resize (n + 1)); L_mgr 0]%nat.

(** Pools built by [thread_pool(1)] and [thread_pool(64)]. *)
Definition pool1 : state := Eval vm_compute in default init (thread_pool 1).
Definition pool64 : state := Eval vm_compute in default init (thread_pool 64).

(** Each of [n] workers finds the queue empty and goes to wait. *)
Definition all_wait (n : nat) : list label :=
  k ← seq 0 n; replicate 5 (L_worker k 0).

(** The pool is destroyed: [stop(true)] notifies all, the workers in slots
    0 and 1 wake up one after the other and leave the wait. *)
Definition destroy_idle : list label :=
  [L_call (Stop true); L_mgr 0; L_mgr 0] ++
  replicate 4 (L_worker 0 0) ++ replicate 4 (L_worker 1 0).

(** A run in which every reading of the clock gives [t]. *)
Definition at_time (t : Z) (tr : list label) : list (label * (Z * Z)) :=
  (λ l, (l, (t, t))) <$> tr.

(** A tracker after the value has gone from 0 to 3 at 2.5 s, and then to 5
    at 4 s. *)
Definition tracker3 : ValueTracker :=
  Eval vm_compute in
    default (ValueTracker_new 0 0)
      (fst <$> updateValue 3 2500000000 2500000000 (ValueTracker_new 0 0)).
Definition tracker5 : ValueTracker :=
  Eval vm_compute in
    default tracker3 (fst <$> updateValue 5 4000000000 4000000000 tracker3).

(** ** Devices for the proofs *)

(** Calls of push stuck before their append, on a queue whose limit is 0. *)
Definition before_append (p : ploc) : Prop :=
  match p with P_start _ | P_qwait _ => True | _ => False end.

Definition starved (s : state) : Prop :=
  limit_ s = 0%N ∧ q s = [] ∧ Forall before_append (pushers s).

(** The state a transition leads to, kept from being substituted while the
    transition is taken apart. *)
Definition target (s : state) : state := s.
Global Arguments target : simpl never.


(** * Properties *)

(** ** Runs *)

Lemma run_app tr1 tr2 s :
  run (tr1 ++ tr2) s = s' ← run tr1 s; run tr2 s'.
Proof.
  revert s. induction tr1 as [|l tr1 IH]; intros s; simpl; [done|].
  destruct (step l s) as [s1|]; simpl; [apply IH|done].
Qed.

Lemma run_snoc tr l s s' :
  run (tr ++ [l]) s = Some s' ↔ ∃ s1, run tr s = Some s1 ∧ step l s1 = Some s'.
Proof.
  rewrite run_app. split.
  - destruct (run tr s) as [s1|]; simpl; [|done].
    destruct (step l s1) as [s2|] eqn:E; simpl; [|done].
    intros [= <-]. eauto.
  - intros (s1 & -> & E). simpl. by rewrite E.
Qed.

(** A property kept by every transition holds along every run. *)
Lemma run_inv (P : state → Prop) tr s s' :
  (∀ l s1 s2, P s1 → step l s1 = Some s2 → P s2) →
  P s → run tr s = Some s' → P s'.
Proof.
  intros Hstep. revert s. induction tr as [|l tr IH]; intros s Hs; simpl.
  - by intros [= <-].
  - destruct (step l s) as [s1|] eqn:E; simpl; [|done]. eauto.
Qed.

Lemma reachable_step l s s' :
  reachable s → step l s = Some s' → reachable s'.
Proof.
  intros (s0 & tr & H0 & Hr) Hs. exists s0, (tr ++ [l]).
  split; [done|]. apply run_snoc; eauto.
Qed.

Lemma reachable_run tr s s' :
  reachable s → run tr s = Some s' → reachable s'.
Proof.
  intros (s0 & tr0 & H0 & Hr) Hs. exists s0, (tr0 ++ tr).
  split; [done|]. rewrite run_app, Hr. done.
Qed.

(** ** Projections through the loop of [resize] *)

Lemma grow_frame cnt i s :
  q (grow cnt i s) = q s ∧ limit_ (grow cnt i s) = limit_ s ∧
  isDone (grow cnt i s) = isDone s ∧ isStop (grow cnt i s) = isStop s ∧
  nWaiting (grow cnt i s) = nWaiting s ∧ mutex (grow cnt i s) = mutex s ∧
  pushers (grow cnt i s) = pushers s ∧ mgr (grow cnt i s) = mgr s ∧
  next_id (grow cnt i s) = next_id s ∧ chan (grow cnt i s) = chan s ∧
  destroyed (grow cnt i s) = destroyed s.
Proof.
  revert i s. induction cnt as [|c IH]; intros i s; simpl; [done|].
  destruct (IH (i + 1) (set_thread i s)) as (?&?&?&?&?&?&?&?&?&?&?).
  repeat split; etrans; try eassumption; done.
Qed.

Lemma grow_length cnt i s :
  length (threads (grow cnt i s)) = (length (threads s) + cnt)%nat ∧
  length (flags (grow cnt i s)) = (length (flags s) + cnt)%nat ∧
  length (workers (grow cnt i s)) = (length (workers s) + cnt)%nat.
Proof.
  revert i s. induction cnt as [|c IH]; intros i s; simpl; [lia|].
  destruct (IH (i + 1) (set_thread i s)) as (-> & -> & ->).
  simpl. rewrite !length_app. simpl. lia.
Qed.

(** ** Case analysis of a transition *)

(** Field projections of updated states, leaving list operations folded. *)
Ltac proj :=
  cbn [q limit_ threads flags isDone isStop nWaiting mutex workers pushers
       mgr next_id chan destroyed with_q with_limit with_threads with_flags
       with_isDone with_isStop with_nWaiting with_mutex with_workers
       with_pushers with_mgr with_next_id with_chan with_destroyed goto at_p
       set_limit set_thread widx wflag wdet wat at_ raise_flag detach] in *.

(** All cases of [H : step l s = Some s'].  The goal is kept out of the
    way, and the target state is substituted only at the end, once every
    branch of the transition has been taken apart. *)
Ltac step_inv H :=
  match goal with
  | |- ?G =>
      let P := fresh "Goal" in
      set (P := G);
      unfold step, worker_step, pusher_step, mgr_step, enter, push, Queue_pop,
        Queue_push in H;
      match type of H with
      | _ = Some ?s' => change (Some s') with (Some (target s')) in H
      end;
      simplify_option_eq; repeat (case_match; simplify_option_eq; try done);
      unfold target in *; simplify_eq;
      subst P
  end.

(** ** Condition variables and the loop of [resize], by lookup *)

Lemma existsb_false {A} (f : A → bool) (l : list A) :
  existsb f l = false → Forall (λ x, f x = false) l.
Proof.
  intros E. apply Forall_forall. intros x Hx.
  destruct (f x) eqn:Ex; [|done].
  assert (existsb f l = true); [|congruence].
  apply existsb_exists. exists x. by rewrite <-list_elem_of_In.
Qed.

Lemma notify_one_q_spec j ps ps' :
  notify_one_q j ps = Some ps' →
  (ps' = ps ∧ Forall (λ p, is_qwait p = false) ps) ∨
  (∃ t, ps !! j = Some (P_qwait t) ∧ ps' = <[j := P_qwoken t]> ps).
Proof.
  unfold notify_one_q. intros H.
  destruct (ps !! j) as [[t|t|t| |]|] eqn:Hj;
    try (destruct (existsb is_qwait ps) eqn:E; [done|];
         left; split; [congruence|by apply existsb_false]).
  right. exists t. split; [done|congruence].
Qed.

Lemma notify_one_q_enabled ps : ∃ j, is_Some (notify_one_q j ps).
Proof.
  unfold notify_one_q. destruct (existsb is_qwait ps) eqn:E.
  - apply existsb_exists in E as (p & Hin & Hp).
    apply list_elem_of_In, list_elem_of_lookup in Hin as (i & Hi).
    exists i. rewrite Hi. destruct p; try done; eauto.
  - exists (length ps). rewrite (lookup_ge_None_2 ps) by lia. eauto.
Qed.

Lemma notify_one_spec j ws ws' :
  notify_one j ws = Some ws' →
  (ws' = ws ∧ Forall (λ w, is_wait w = false) ws) ∨
  (∃ w, ws !! j = Some w ∧ wat w = W_wait ∧ ws' = alter (at_ W_woken) j ws).
Proof.
  unfold notify_one. intros H.
  destruct (ws !! j) as [w|] eqn:Hj.
  - destruct (is_wait w) eqn:Hw.
    + right. exists w. simplify_eq. split; [done|]. split.
      * unfold is_wait in Hw. by destruct (wat w).
      * rewrite list_insert_alter. apply list_alter_ext; [|done].
        intros x Hx. congruence.
    + destruct (existsb is_wait ws) eqn:E; [done|].
      left. split; [congruence|by apply existsb_false].
  - destruct (existsb is_wait ws) eqn:E; [done|].
    left. split; [congruence|by apply existsb_false].
Qed.

Lemma notify_one_enabled ws : ∃ j, is_Some (notify_one j ws).
Proof.
  unfold notify_one. destruct (existsb is_wait ws) eqn:E.
  - apply existsb_exists in E as (w & Hin & Hw).
    apply list_elem_of_In, list_elem_of_lookup in Hin as (i & Hi).
    exists i. rewrite Hi, Hw. eauto.
  - exists (length ws). rewrite (lookup_ge_None_2 ws) by lia. eauto.
Qed.

Lemma lookup_notify_all ws k w' :
  notify_all ws !! k = Some w' ↔ ∃ w, ws !! k = Some w ∧ w' = wake w.
Proof.
  unfold notify_all. rewrite list_lookup_fmap, fmap_Some. naive_solver.
Qed.

Lemma wake_fields w :
  widx (wake w) = widx w ∧ wflag (wake w) = wflag w ∧ wdet (wake w) = wdet w ∧
  wat (wake w) = match wat w with W_wait => W_woken | l => l end.
Proof. unfold wake, is_wait. by destruct (wat w) eqn:E; simpl; rewrite ?E. Qed.

Lemma holding_wake w : holding (wat (wake w)) = holding (wat w).
Proof. destruct (wake_fields w) as (_&_&_&->). by destruct (wat w). Qed.

Lemma grow_spec cnt i s :
  workers (grow cnt i s) = workers s ++ spawned cnt i ∧
  threads (grow cnt i s) = threads s ++ seq (length (workers s)) cnt ∧
  flags (grow cnt i s) = flags s ++ seq (length (workers s)) cnt.
Proof.
  revert i s. induction cnt as [|c IH]; intros i s; simpl.
  - by rewrite !app_nil_r.
  - destruct (IH (i + 1) (set_thread i s)) as (-> & -> & ->). proj.
    rewrite length_app. simpl. rewrite Nat.add_1_r.
    by rewrite <-!(assoc_L (++)).
Qed.

Lemma spawned_fresh cnt i :
  Forall (λ w, wflag w = false ∧ wdet w = false ∧ wat w = W_pop)
    (spawned cnt i).
Proof. revert i. induction cnt; intros i; simpl; constructor; auto. Qed.

Lemma spawned_length cnt i : length (spawned cnt i) = cnt.
Proof. revert i. induction cnt; intros i; simpl; auto. Qed.

(** Replace the fields of [grow c i s] by their values. *)
Ltac grow_fields :=
  repeat match goal with
  | |- context [grow ?c ?i ?s] =>
      let Hf := fresh in
      pose proof (grow_frame c i s) as Hf;
      destruct Hf as (?&?&?&?&?&?&?&?&?&?&?);
      let Hs := fresh in
      pose proof (grow_spec c i s) as Hs;
      destruct Hs as (?&?&?);
      let s0 := fresh "s" in
      generalize dependent (grow c i s); intros s0; intros;
      repeat match goal with
      | H : _ s0 = _ |- _ => rewrite H in *; clear H
      end
  end.

(** Decompose lookups in updated lists. *)
Ltac lk :=
  repeat match goal with
  | H : alter _ ?i _ !! ?j = Some _ |- _ =>
      rewrite list_lookup_alter in H; destruct (decide (i = j));
      [apply fmap_Some in H as (? & H & ->); simplify_eq|]
  | H : notify_all _ !! _ = Some _ |- _ =>
      apply lookup_notify_all in H as (? & H & ->)
  | H : (_ ++ _) !! _ = Some _ |- _ =>
      apply lookup_app_Some in H as [H|[? H]]
  | H : spawned _ _ !! _ = Some _ |- _ =>
      apply (Forall_lookup_1 _ _ _ _ (spawned_fresh _ _)) in H as (?&?&?)
  | H : notify_one _ _ = Some _ |- _ =>
      apply notify_one_spec in H as [[-> ?]|(? & ? & ? & ->)]
  | H : notify_one_q _ _ = Some _ |- _ =>
      apply notify_one_q_spec in H as [[-> ?]|(? & ? & ->)]
  end.

(** ** The mutex *)

Lemma mutex_ok_step l s s' : mutex_ok s → step l s = Some s' → mutex_ok s'.
Proof.
  intros [Hm Hh] H. split.
  - intros k0 w0 Hk0. revert Hm Hh Hk0.
    destruct l as [k j|k j|j|f|c]; step_inv H; intros Hm Hh Hk0;
      proj; grow_fields; lk; simplify_eq; rewrite ?holding_wake; proj.
    all: repeat match goal with
         | H : workers _ !! _ = Some _ |- _ => apply Hm in H
         end.
    all: repeat match goal with
         | H : wat _ = _ |- _ => rewrite H in *
         | H : mutex _ = _ |- _ => rewrite H in *
         end.
    all: simpl in *.
    all: try (clear Hm Hh; intuition congruence).
    split; [done|]. intros Hx%Hh. lia.
  - intros k0 Hk0. revert Hh Hk0. clear Hm.
    destruct l as [k j|k j|j|f|c]; step_inv H; intros Hh Hk0;
      proj; grow_fields; lk; simplify_eq; proj.
    all: try apply Hh in Hk0.
    all: unfold notify_all;
      rewrite ?length_alter, ?length_app, ?length_fmap; try lia.
    all: try (eapply lookup_lt_Some; eassumption).
Qed.

(** ** Conservation of tasks *)

Lemma sum_list_with_alter {A} (f : A → nat) (g : A → A) l k x :
  l !! k = Some x →
  (sum_list_with f (alter g k l) + f x = sum_list_with f l + f (g x))%nat.
Proof.
  revert k. induction l as [|y l IH]; intros [|k] H; simplify_eq/=; [lia|].
  specialize (IH _ H). lia.
Qed.

Lemma sum_list_with_alter_same {A} (f : A → nat) (g : A → A) l k :
  (∀ x, f (g x) = f x) →
  sum_list_with f (alter g k l) = sum_list_with f l.
Proof.
  intros Hfg. revert k.
  induction l as [|y l IH]; intros k; [by destruct k|].
  destruct k; simpl; [by rewrite Hfg|]. f_equal. apply IH.
Qed.

Lemma sum_list_with_insert {A} (f : A → nat) l k x y :
  l !! k = Some x →
  (sum_list_with f (<[k:=y]> l) + f x = sum_list_with f l + f y)%nat.
Proof.
  intros H. rewrite list_insert_alter.
  by apply (sum_list_with_alter f (λ _, y)).
Qed.

Lemma sum_list_with_fmap_same {A} (f : A → nat) (g : A → A) l :
  (∀ x, f (g x) = f x) → sum_list_with f (g <$> l) = sum_list_with f l.
Proof. intros Hfg. induction l; simpl; rewrite ?Hfg; auto. Qed.

Lemma sum_list_with_zero {A} (f : A → nat) l :
  Forall (λ x, f x = 0%nat) l → sum_list_with f l = 0%nat.
Proof. induction 1; simpl; lia. Qed.

Lemma whit_wake x w : whit x (wake w) = whit x w.
Proof.
  unfold whit. destruct (wake_fields w) as (_&_&_&->). by destruct (wat w).
Qed.

Lemma whit_spawned x cnt i : sum_list_with (whit x) (spawned cnt i) = 0%nat.
Proof. revert i. induction cnt; intros i; simpl; auto. Qed.

(** Sums over updated lists, as equations for [lia]. *)
Ltac sums :=
  unfold notify_all;
  repeat first
    [ rewrite sum_list_with_app
    | rewrite sum_list_with_fmap_same by (intros; first [apply whit_wake|done])
    | rewrite sum_list_with_alter_same by (intros; done)
    | rewrite whit_spawned
    | match goal with
      | H : ?l !! ?k = Some ?x |- context [sum_list_with ?f (alter ?g ?k ?l)] =>
          let E := fresh "E" in
          pose proof (sum_list_with_alter f g l k x H) as E;
          let n := fresh "n" in
          set (n := sum_list_with f (alter g k l)) in *; clearbody n
      | H : ?l !! ?k = Some ?x |- context [sum_list_with ?f (<[?k:=?y]> ?l)] =>
          let E := fresh "E" in
          pose proof (sum_list_with_insert f l k x y H) as E;
          let n := fresh "n" in
          set (n := sum_list_with f (<[k:=y]> l)) in *; clearbody n
      end ].

(** A transition moves a task from one place to another; entering [push]
    allocates a new one. *)
Lemma occ_step l s s' x :
  step l s = Some s' →
  occ x s' =
  (occ x s + match l with L_push _ => hit x (next_id s) | _ => 0 end)%nat.
Proof.
  intros H. unfold occ, n_pending, n_queued, n_held, n_ran, n_destroyed.
  destruct l as [k j|k j|j|f|c]; step_inv H; proj; grow_fields; lk;
      simplify_eq; proj.
  all: repeat match goal with H : q _ = _ |- _ => rewrite H in * end.
  all: sums.
  all: unfold whit, phit in *; proj.
  all: repeat match goal with
         | H : wat _ = _ |- _ => rewrite H in *
         end.
  all: simpl in *; lia.
Qed.

Lemma next_id_step l s s' :
  step l s = Some s' →
  next_id s' =
  (next_id s + match l with L_push _ => 1 | _ => 0 end)%nat.
Proof.
  intros H.
  destruct l as [k j|k j|j|f|c]; step_inv H; proj; grow_fields; lia.
Qed.

Lemma ids_ok_step l s s' : ids_ok s → step l s = Some s' → ids_ok s'.
Proof.
  intros Hok H x. destruct (Hok x) as [H1 H2].
  rewrite (occ_step _ _ _ x H), (next_id_step _ _ _ H).
  destruct l; rewrite ?Nat.add_0_r; try done.
  unfold hit. case_decide; [subst; rewrite H2 by lia|]; split; lia.
Qed.

(** ** Queue::push with the default limit *)

Lemma starved_step l s s' : starved s → step l s = Some s' → starved s'.
Proof.
  intros (Hl & Hq & Hp) H. unfold starved.
  destruct l as [k j|k j|j|f|c]; step_inv H; simpl in *;
    try (destruct (grow_frame (Z.to_nat (n - size s)) (size s) s)
           as (->&->&_&_&_&_&->&_)); try done.
  all: try (exfalso; eapply Forall_lookup_1 in Hp; [|eassumption]; done).
  all: try match goal with
           | H : (_ <=? _)%N = false |- _ => apply N.leb_gt in H; lia
           end.
  - repeat split; try done. apply Forall_insert; done.
  - repeat split; try done. apply Forall_app; split; [done|].
    by apply Forall_singleton.
Qed.

(** ** The bound of the queue *)

(** C1 (the code departs from the claim): on a pool built by
    [thread_pool(1)], whose queue limit is 1, a reachable state has two
    tasks in the queue.  [Queue::push] tests the size once, before the wait,
    and appends after the wait without testing again. *)
Theorem Queue_size_can_exceed_limit :
  ∃ s, reachable s ∧ limit_ s = 1%N ∧ length (q s) = 2%nat.
Proof.
  destruct (run overflow_trace
              (set_limit 1 (with_mgr M_idle (grow 1 0 init)))) as [s|] eqn:E;
    [|by vm_compute in E].
  exists s. split; [|by vm_compute in E; simplify_eq].
  eexists _, overflow_trace. split; [right; by exists 1|done].
Qed.

(** C2 (the code departs from the claim): on a default-constructed pool the
    limit stays 0, [Queue::push] finds [size >= 0] true and always waits, so
    under every schedule the queue stays empty and every call of push is
    still at its start or blocked in the wait. *)
Theorem push_with_limit_0_blocks tr s :
  run tr init = Some s →
  limit_ s = 0%N ∧ q s = [] ∧ Forall before_append (pushers s) ∧
  ∀ t, Queue_push t s = inl ().
Proof.
  intros Hr.
  assert (starved s) as (Hl & Hq & Hp).
  { eapply (run_inv starved); [apply starved_step| |done]. by repeat split. }
  repeat split; try done. intros t. unfold Queue_push.
  rewrite Hl. by rewrite (proj2 (N.leb_le _ _)) by lia.
Qed.

Lemma push_with_limit_0_blocks_witness :
  ∃ s, run [L_call (Resize 2); L_mgr 0; L_push ident; L_pusher 0 0]%nat init
       = Some s ∧ q s = [] ∧ Forall before_append (pushers s).
Proof.
  destruct (run [L_call (Resize 2); L_mgr 0; L_push ident; L_pusher 0 0]%nat
              init) as [s|] eqn:E; [|by vm_compute in E].
  exists s. split; [reflexivity|].
  destruct (push_with_limit_0_blocks _ _ E) as (_ & Hq & Hp & _).
  split; [exact Hq|exact Hp].
Defined.

(** ** Construction *)

Lemma ctor_resize (n : Z) :
  0 ≤ n →
  mgr_step 0 (with_mgr (R_start n) init) =
  Some (with_mgr M_idle (grow (Z.to_nat n) 0 (with_mgr (R_start n) init))).
Proof.
  intros Hn. unfold mgr_step, size. cbv zeta.
  change (isStop (with_mgr (R_start n) init)) with false.
  change (isDone (with_mgr (R_start n) init)) with false.
  change (mgr (with_mgr (R_start n) init)) with (R_start n).
  change (Z.of_nat (length (threads (with_mgr (R_start n) init)))) with 0.
  cbv beta iota. simpl orb. cbv iota.
  rewrite Z.sub_0_r. destruct (Z.leb_spec 0 n) as [_|?]; [|lia].
  reflexivity.
Qed.

Lemma thread_pool_eq (n : Z) :
  0 ≤ n →
  thread_pool n =
  Some (set_limit 1
          (with_mgr M_idle (grow (Z.to_nat n) 0 (with_mgr (R_start n) init)))).
Proof. intros Hn. unfold thread_pool. by rewrite ctor_resize. Qed.

Lemma thread_pool_neg (n : Z) : n < 0 → thread_pool n = None.
Proof.
  intros Hn. unfold thread_pool, mgr_step, size. cbv zeta.
  change (isStop (with_mgr (R_start n) init)) with false.
  change (isDone (with_mgr (R_start n) init)) with false.
  change (mgr (with_mgr (R_start n) init)) with (R_start n).
  change (Z.of_nat (length (threads (with_mgr (R_start n) init)))) with 0.
  cbv beta iota. simpl orb. cbv iota.
  destruct (Z.leb_spec 0 n) as [?|_]; [lia|]. reflexivity.
Qed.

(** C3: [thread_pool(nThreads)] leaves the queue limit at 1 (and starts
    [nThreads] workers); the default constructor leaves it at 0. *)
Theorem thread_pool_limit (n : Z) :
  0 ≤ n →
  ∃ s, thread_pool n = Some s ∧ limit_ s = 1%N ∧ size s = n ∧
       limit_ init = 0%N.
Proof.
  intros Hn. eexists. split; [by apply thread_pool_eq|].
  split; [done|]. split; [|done]. unfold size. simpl.
  destruct (grow_length (Z.to_nat n) 0 (with_mgr (R_start n) init))
    as (-> & _). simpl. lia.
Qed.

Lemma thread_pool_limit_witness :
  ∃ s, thread_pool 4 = Some s ∧ limit_ s = 1%N ∧ size s = 4 ∧
       limit_ init = 0%N.
Proof. apply (thread_pool_limit 4). lia. Defined.

(** ** The worker loop *)

(** What the other threads do leaves a worker where it is, unless it
    waits. *)
Lemma others_keep k l s s' w :
  others k l = true → step l s = Some s' → workers s !! k = Some w →
  wat w ≠ W_wait →
  ∃ w', workers s' !! k = Some w' ∧ wat w' = wat w.
Proof.
  intros Hl H Hk Hw. revert Hl Hk Hw.
  destruct l as [k0 j|k0 j|j|f|c]; step_inv H; intros Hl Hk Hw; proj;
    grow_fields.
  all: try (apply negb_true_iff, Nat.eqb_neq in Hl).
  all: unfold notify_all;
    rewrite ?list_lookup_fmap, ?list_lookup_alter;
    repeat (case_decide; simplify_eq);
    try (rewrite lookup_app_l by (by eapply lookup_lt_Some));
    lk; simplify_eq; rewrite ?list_lookup_alter;
    repeat (case_decide; simplify_eq);
    repeat match goal with H : workers _ !! _ = Some _ |- _ => rewrite H end;
    simpl; try (eexists; split; [done|]); proj; try done.
  all: try (destruct (wake_fields w) as (_ & _ & _ & ->); by destruct (wat w)).
Qed.

Lemma others_keep_run k tr s s' w l0 :
  forallb (others k) tr = true → run tr s = Some s' →
  workers s !! k = Some w → wat w = l0 → l0 ≠ W_wait →
  ∃ w', workers s' !! k = Some w' ∧ wat w' = l0.
Proof.
  revert s w. induction tr as [|l tr IH]; intros s w Htr Hr Hk Hw Hl0;
    simpl in *.
  - simplify_eq. eauto.
  - apply andb_true_iff in Htr as [Hl Htr].
    destruct (step l s) as [s1|] eqn:E; [|done]. simpl in Hr.
    destruct (others_keep k l s s1 w Hl E Hk) as (w1 & Hk1 & Hw1);
      [congruence|].
    eapply IH; eauto. congruence.
Qed.

(** C8: a worker that runs a claimed task goes on to test its flag, and
    stays at that test whatever the other threads do in between.  If it
    then finds its flag set it returns: its one transition leads to
    [W_exit] and changes nothing else, so the queue is not touched whatever
    it holds, and from [W_exit] it has no transition. *)
Theorem worker_exits_on_flag s k j w t :
  workers s !! k = Some w → wat w = W_exec t →
  ∃ s1, step (L_worker k j) s = Some s1 ∧
    workers s1 !! k = Some (at_ W_flag w) ∧ q s1 = q s ∧
    chan s1 = chan s ++ [(tid t, body t (widx w))] ∧
    ∀ tr s2 w2, forallb (others k) tr = true → run tr s1 = Some s2 →
      workers s2 !! k = Some w2 → wflag w2 = true →
      wat w2 = W_flag ∧
      ∀ j', step (L_worker k j') s2 = Some (goto k W_exit s2) ∧
            q (goto k W_exit s2) = q s2 ∧
            workers (goto k W_exit s2) !! k = Some (at_ W_exit w2) ∧
            ∀ j'', step (L_worker k j'') (goto k W_exit s2) = None.
Proof.
  intros Hk Hat. eexists. split.
  { unfold step, worker_step. rewrite Hk. simpl. by rewrite Hat. }
  proj. split; [by rewrite list_lookup_alter, decide_True, Hk by done|].
  split; [done|]. split; [done|].
  intros tr s2 w2 Htr Hr Hk2 Hf.
  destruct (others_keep_run k tr _ s2 (at_ W_flag w) W_flag Htr Hr)
    as (w2' & Hk2' & Hat2); [|done|done|].
  { proj. by rewrite list_lookup_alter, decide_True, Hk by done. }
  assert (w2' = w2) as -> by congruence.
  split; [done|]. intros j'. split; [|split; [done|split]].
  - unfold step, worker_step. rewrite Hk2. simpl. by rewrite Hat2, Hf.
  - proj. by rewrite list_lookup_alter, decide_True, Hk2 by done.
  - intros j''. unfold step, worker_step. proj.
    by rewrite list_lookup_alter, decide_True, Hk2 by done.
Qed.

Lemma worker_exits_on_flag_witness :
  step (L_worker 0 0) failing_state = Some ran_state ∧
  run flag_raised ran_state = Some flagged_state ∧
  tid <$> q flagged_state = [1%nat] ∧
  step (L_worker 0 0) flagged_state = Some (goto 0 W_exit flagged_state) ∧
  tid <$> q (goto 0 W_exit flagged_state) = [1%nat].
Proof.
  destruct (worker_exits_on_flag failing_state 0 0
              (Worker 0 false false (W_exec (Task 0 always_fails)))
              (Task 0 always_fails) eq_refl eq_refl)
    as (s1 & Hs1 & _ & _ & _ & H).
  assert (Some s1 = Some ran_state) as [= ->] by (rewrite <-Hs1; reflexivity).
  split; [reflexivity|]. split; [reflexivity|]. split; [reflexivity|].
  destruct (H flag_raised flagged_state (Worker 0 true false W_flag)
              eq_refl eq_refl eq_refl eq_refl) as [_ Hx].
  destruct (Hx 0%nat) as (Hstep & Hq & _).
  split; [exact Hstep|]. rewrite Hq. reflexivity.
Defined.

(** ** detail::Queue *)

Lemma Queue_pop_enabled s : ∃ j, is_Some (Queue_pop j s).
Proof.
  unfold Queue_pop. destruct (q s) as [|t rest]; [exists 0%nat; done|].
  destruct (notify_one_q_enabled (pushers s)) as (j & ps & Hj).
  exists j. rewrite Hj. simpl. eauto.
Qed.

(** C9: [Queue::pop] is one transition that is always enabled.  On a
    non-empty queue it returns the head and leaves the tail; on an empty
    queue it returns the empty signal and changes nothing.  At most one
    caller blocked in [Queue::push] is woken. *)
Theorem Queue_pop_contract s :
  (∃ j, is_Some (Queue_pop j s)) ∧
  ∀ j r s', Queue_pop j s = Some (r, s') →
    match q s with
    | [] => r = None ∧ s' = s
    | t :: rest =>
        r = Some t ∧ q s' = rest ∧
        with_pushers (pushers s) (with_q (q s) s') = s ∧
        (pushers s' = pushers s ∧ Forall (λ p, is_qwait p = false) (pushers s)
         ∨ ∃ t', pushers s !! j = Some (P_qwait t') ∧
                 pushers s' = <[j := P_qwoken t']> (pushers s))
    end.
Proof.
  split.
  - apply Queue_pop_enabled.
  - intros j r s' H. unfold Queue_pop in H.
    destruct (q s) as [|t rest] eqn:Hq; [by simplify_eq|].
    destruct (notify_one_q j (pushers s)) as [ps|] eqn:Hn; [|done].
    simpl in H. injection H as <- <-. proj.
    split; [done|]. split; [done|]. split.
    + destruct s; simpl in *. by subst.
    + by apply notify_one_q_spec.
Qed.

Lemma Queue_pop_contract_witness :
  let s := with_pushers [P_qwait (Task 1 ident)] (with_q [Task 0 ident] init) in
  ∃ s', Queue_pop 0 s = Some (Some (Task 0 ident), s') ∧ q s' = [] ∧
        pushers s' = [P_qwoken (Task 1 ident)].
Proof.
  intros s. eexists. split; [reflexivity|].
  destruct (Queue_pop_contract s) as [_ H].
  destruct (H 0%nat _ _ eq_refl) as (_ & Hq & _). split; [exact Hq|reflexivity].
Defined.

(** ** The thread and flag vectors *)

Lemma worker_step_frame k j s s' :
  worker_step k j s = Some s' →
  threads s' = threads s ∧ flags s' = flags s ∧ mgr s' = mgr s ∧
  isStop s' = isStop s ∧ isDone s' = isDone s ∧ limit_ s' = limit_ s ∧
  next_id s' = next_id s ∧ destroyed s' = destroyed s.
Proof. intros H. step_inv H; proj; done. Qed.

Lemma pusher_step_frame k j s s' :
  pusher_step k j s = Some s' →
  threads s' = threads s ∧ flags s' = flags s ∧ mgr s' = mgr s ∧
  isStop s' = isStop s ∧ isDone s' = isDone s ∧ limit_ s' = limit_ s ∧
  next_id s' = next_id s ∧ destroyed s' = destroyed s ∧ chan s' = chan s ∧
  mutex s' = mutex s.
Proof. intros H. step_inv H; proj; done. Qed.

Ltac split_alter :=
  match goal with
  | |- context [decide (?a = ?b)] => destruct (decide (a = b))
  end.

Ltac use_lookup :=
  repeat match goal with
  | H : workers _ !! _ = Some _ |- _ => rewrite H
  end.

Lemma pool_ok_worker k j s s' :
  pool_ok s → worker_step k j s = Some s' → pool_ok s'.
Proof.
  intros (Hf & Hnd & Hlive & Hmgr & Hslots) H.
  destruct (worker_step_frame _ _ _ _ H) as (Et & Ef & Em & Es & Ed & _).
  unfold pool_ok, att_ok, live, slot_ok, mgr_ok, size in *.
  rewrite Et, Ef, Em, Es, Ed. repeat (split; [done|]).
  intros j0 id Hj. destruct (Hslots _ _ Hj) as (w & Hw & Hatt & Hsl).
  clear Hslots. revert Hw Hatt Hsl. clear -H.
  step_inv H; proj; intros Hw Hatt Hsl.
  all: rewrite list_lookup_alter; split_alter; simplify_eq; use_lookup;
    simpl; (eexists; split; [done|]); proj; try done.
  all: split; [done|].
  all: destruct (mgr _); try done.
  all: try (intuition congruence).
Qed.

Lemma pool_ok_pusher k j s s' :
  pool_ok s → pusher_step k j s = Some s' → pool_ok s'.
Proof.
  intros (Hf & Hnd & Hlive & Hmgr & Hslots) H.
  destruct (pusher_step_frame _ _ _ _ H) as (Et & Ef & Em & Es & Ed & _).
  unfold pool_ok, att_ok, live, slot_ok, mgr_ok, size in *.
  rewrite Et, Ef, Em, Es, Ed. repeat (split; [done|]).
  intros j0 id Hj. destruct (Hslots _ _ Hj) as (w & Hw & Hatt & Hsl).
  clear Hslots. revert Hw Hatt Hsl. clear -H.
  step_inv H; proj; intros Hw Hatt Hsl; lk; try by eauto.
  all: rewrite list_lookup_alter; split_alter; simplify_eq; use_lookup;
    simpl; (eexists; split; [done|]); proj; try done.
  all: split; [done|].
  all: destruct (mgr _); try done.
  all: try (intuition congruence).
Qed.

Ltac goal_decide :=
  match goal with |- context [decide ?P] => destruct (decide P) end.

Lemma pool_ok_update s s' :
  pool_ok s → threads s' = threads s → flags s' = flags s →
  (live s' ≤ length (threads s))%nat → mgr_ok s' →
  (∀ j id w, threads s !! j = Some id → workers s !! id = Some w →
             att_ok s j w → slot_ok s j w →
             ∃ w', workers s' !! id = Some w' ∧ att_ok s' j w' ∧
                   slot_ok s' j w') →
  pool_ok s'.
Proof.
  intros (Hf & Hnd & Hlive & Hmgr & Hslots) Et Ef El Hm Hsl.
  unfold pool_ok. rewrite Et, Ef. repeat (split; [done|]).
  intros j id Hj. destruct (Hslots _ _ Hj) as (w & Hw & Hatt & Hs).
  by apply (Hsl j id w).
Qed.

Lemma pool_ok_same s s' :
  pool_ok s → threads s' = threads s → flags s' = flags s →
  workers s' = workers s →
  (isStop s' = false → isStop s = false) →
  live s' = live s → mgr_ok s' →
  (∀ j id w, threads s !! j = Some id → workers s !! id = Some w →
             att_ok s j w → slot_ok s j w → slot_ok s' j w) →
  pool_ok s'.
Proof.
  intros Hok Et Ef Ew Es El Hm Hsl.
  eapply pool_ok_update; eauto.
  - rewrite El. by destruct Hok as (_&_&?&_).
  - intros j id w Hj Hw Hatt Hs. exists w. rewrite Ew. split; [done|].
    split; [|by eapply Hsl]. unfold att_ok in *. rewrite El.
    case_decide; naive_solver.
Qed.

Ltac same :=
  eapply pool_ok_same; eauto;
  unfold att_ok, live, mgr_ok, slot_ok, size in *; proj.

Lemma pool_ok_mgr j s s' :
  mutex_ok s → pool_ok s → mgr_step j s = Some s' → pool_ok s'.
Proof.
  intros Hmx Hok H. unfold mgr_step in H.
  pose proof Hok as (Hf & Hnd & Hlive & Hmgr & Hslots).
  unfold mgr_ok, live, size in Hmgr, Hlive.
  destruct (mgr s) as [|n|i n|n|b|i n| | |i|] eqn:Em.
  - done.
  - (* R_start *)
    destruct (isStop s || isDone s) eqn:Eflags; simplify_eq.
    { same; rewrite ?Em; done. }
    unfold size in H.
    destruct (Z.leb_spec (Z.of_nat (length (threads s))) n); simplify_eq.
    + set (cnt := Z.to_nat (n - Z.of_nat (length (threads s)))).
      set (old := Z.of_nat (length (threads s))).
      destruct (grow_frame cnt old s) as (_&_&_&Es&_&_&_&Eg&_).
      destruct (grow_spec cnt old s) as (Ew & Et & Ef).
      unfold pool_ok, att_ok, live, mgr_ok, slot_ok; proj. rewrite Et, Ef, Ew, Es.
      split; [by rewrite Hf|]. split.
      { apply NoDup_app. split; [done|]. split; [|apply NoDup_seq].
        intros x [j0 Hx]%list_elem_of_lookup Hs%elem_of_seq.
        destruct (Hslots _ _ Hx) as (w & Hw%lookup_lt_Some & _). lia. }
      split; [done|]. split; [done|].
      intros j0 id [Hj|[Hlen Hj]]%lookup_app_Some.
      * destruct (Hslots _ _ Hj) as (w & Hw & Hatt & _).
        exists w. split; [by apply lookup_app_l_Some|].
        split; [|done]. apply lookup_lt_Some in Hj.
        rewrite length_app. unfold att_ok, live in Hatt. rewrite Em in Hatt.
        repeat case_decide; try lia; done.
      * apply lookup_seq in Hj as [-> Hj].
        destruct (lookup_lt_is_Some_2 (spawned cnt old)
                    (j0 - length (threads s))) as [w Hw].
        { by rewrite spawned_length. }
        exists w. split.
        { rewrite lookup_app_r by lia. rewrite <-Hw. f_equal. lia. }
        apply (Forall_lookup_1 _ _ _ _ (spawned_fresh _ _)) in Hw as (?&?&?).
        split; [|done]. rewrite length_app, length_seq.
        case_decide; [done|lia].
    + same; rewrite ?Em; try done; lia.
  - (* R_shrink *)
    destruct (Z.leb_spec n i); [|simplify_eq; same; rewrite ?Em; try done; lia].
    destruct (Z.ltb_spec i 0); [done|].
    destruct (flags s !! Z.to_nat i) as [f|] eqn:Hfi; [|by simpl in H].
    destruct (threads s !! Z.to_nat i) as [t|] eqn:Hti; [|by simpl in H].
    simpl in H. rewrite Hf in Hfi. assert (f = t) as -> by congruence.
    clear Hfi. simplify_eq.
    eapply pool_ok_update; eauto; unfold att_ok, live, mgr_ok, slot_ok, size;
      proj; rewrite ?Em; try lia.
    intros j0 id w Hj Hw Hatt _.
    destruct (decide (t = id)) as [->|Hne];
      [rewrite !list_lookup_alter_eq|rewrite !list_lookup_alter_ne by done].
    + rewrite Hw. simpl. eexists. split; [done|]. split; [|done]. proj.
      rewrite (NoDup_lookup _ _ _ _ Hnd Hj Hti). clear Hatt.
      goal_decide; [lia|done].
    + rewrite Hw. simpl. eexists. split; [done|]. split; [|done].
      assert (j0 ≠ Z.to_nat i) by congruence.
      repeat case_decide; try lia; done.
  - (* R_notify *)
    destruct (mutex s) eqn:Emx; [done|]. simplify_eq.
    unfold pool_ok, att_ok, live, mgr_ok, slot_ok; proj. rewrite Hf.
    split; [done|]. split; [eapply sublist_NoDup, sublist_take; done|].
    split; [done|]. split; [done|].
    intros j0 id [Hj Hlt]%lookup_take_Some.
    destruct (Hslots _ _ Hj) as (w & Hw & Hatt & _).
    exists (wake w). split; [apply lookup_notify_all; eauto|].
    split; [|done]. destruct (wake_fields w) as (_ & -> & -> & _).
    rewrite length_take. unfold att_ok, live in Hatt. rewrite Em in Hatt.
    apply lookup_lt_Some in Hj.
    repeat case_decide; try lia; done.
  - (* S_start *)
    destruct b.
    + destruct (isDone s || isStop s) eqn:Eflags; simplify_eq.
      * same; rewrite ?Em; done.
      * same; rewrite ?Em; try done. intros; by left.
    + destruct (isStop s) eqn:Eflags; simplify_eq.
      * same; rewrite ?Em; done.
      * same; rewrite ?Em; try done. intros; lia.
  - (* S_flags *)
    destruct Hmgr as (-> & Hi & HS).
    destruct (Z.ltb_spec i (Z.of_nat (length (threads s)))).
    2:{ simplify_eq. same; rewrite ?Em; try done.
        intros j0 id w Hj%lookup_lt_Some _ _ Hfl. apply Hfl. lia. }
    destruct (Z.ltb_spec i 0); [lia|].
    destruct (flags s !! Z.to_nat i) as [f|] eqn:Hfi; [|by simpl in H].
    simpl in H. rewrite Hf in Hfi. simplify_eq.
    eapply pool_ok_update; eauto; unfold att_ok, live, mgr_ok, slot_ok, size;
      proj; rewrite ?Em; try done; [repeat split; try done; lia|].
    intros j0 id w Hj Hw Hatt Hsl.
    destruct (decide (f = id)) as [->|Hne];
      [rewrite !list_lookup_alter_eq|rewrite !list_lookup_alter_ne by done];
      rewrite Hw; simpl.
    + eexists. split; [done|]. proj. split; [|done].
      case_decide; [split; [tauto|congruence]|tauto].
    + eexists. split; [done|]. split; [done|].
      intros Hlt. apply Hsl.
      assert (j0 ≠ Z.to_nat i) by congruence. lia.
  - (* S_clear1 *)
    unfold Queue_pop in H. destruct (q s) as [|t r] eqn:Hq; simplify_option_eq.
    + same; rewrite ?Em; try done. intros; by right.
    + same; rewrite ?Em; done.
  - (* S_notify *)
    destruct (mutex s) eqn:Emx; [done|]. simplify_eq.
    eapply pool_ok_update; eauto; unfold att_ok, live, mgr_ok, slot_ok, size;
      proj; rewrite ?Em; try done.
    intros j0 id w Hj Hw Hatt Hsl.
    exists (wake w). split; [apply lookup_notify_all; eauto|].
    destruct (wake_fields w) as (_ & -> & -> & Hwat).
    split; [done|]. split; [done|]. rewrite Hwat.
    split; [by destruct (wat w)|]. split; [|lia].
    intros Hp. assert (wat w = W_pred_flag) as Hp' by by destruct (wat w).
    destruct Hmx as [Hmx _]. apply Hmx in Hw. rewrite Hp' in Hw.
    destruct Hw as [Hw _]. specialize (Hw eq_refl). congruence.
  - (* S_join *)
    unfold size in H.
    destruct (Z.ltb_spec i (Z.of_nat (length (threads s)))).
    2:{ simplify_eq. same; rewrite ?Em; try done.
        intros j0 id w Hj%lookup_lt_Some _ _ (_&_&_&Hex). apply Hex. lia. }
    destruct (Z.ltb_spec i 0); [lia|].
    destruct (threads s !! Z.to_nat i) as [t|] eqn:Hti; [|by simpl in H].
    simpl in H. destruct (workers s !! t) as [w|] eqn:Hwt; [|by simpl in H].
    simpl in H.
    destruct (Hslots _ _ Hti) as (w' & Hw' & Hatt & _).
    assert (w' = w) as -> by congruence. clear Hw'.
    unfold att_ok, live in Hatt. rewrite Em in Hatt. apply lookup_lt_Some in Hti as Hlt.
    case_decide; [|lia]. destruct Hatt as [Hdet _]. rewrite Hdet in H.
    destruct (wat w) eqn:Hwat; try done. simplify_eq.
    same; rewrite ?Em; try done; [lia|].
    intros j0 id w0 Hj Hw _ (?&?&?&Hex). repeat split; try done.
    intros Hlt'. destruct (decide (j0 = Z.to_nat i)) as [->|]; [congruence|].
    apply Hex. lia.
  - (* S_clear2 *)
    unfold Queue_pop in H. destruct (q s) as [|t r] eqn:Hq; simplify_option_eq.
    + unfold pool_ok, att_ok, live, mgr_ok, slot_ok; proj.
      repeat split; try done; try apply NoDup_nil_2.
      all: intros ?? Hx; by rewrite lookup_nil in Hx.
    + same; rewrite ?Em; done.
Qed.

Lemma pool_ok_step l s s' :
  mutex_ok s → pool_ok s → step l s = Some s' → pool_ok s'.
Proof.
  intros Hmx Hok H. pose proof Hok as (_&_&_&Hmgr&_).
  destruct l as [k j|k j|j|f|c]; simpl in H.
  - by eapply pool_ok_worker.
  - by eapply pool_ok_pusher.
  - by eapply pool_ok_mgr.
  - simplify_eq. unfold push. same; done.
  - unfold enter in H. destruct (mgr s) eqn:Em; try done.
    destruct c as [n|b].
    + destruct (Z.leb_spec 0 n); simplify_eq. same; rewrite ?Em; done.
    + simplify_eq. same; rewrite ?Em; done.
Qed.

Lemma exits_ok_step l s s' : exits_ok s → step l s = Some s' → exits_ok s'.
Proof.
  intros Hex H k0 w0 Hk0. revert Hex Hk0.
  destruct l as [k j|k j|j|f|c]; step_inv H; intros Hex Hk0;
    proj; grow_fields; lk; simplify_eq; proj.
  all: try (destruct (wake_fields x) as (_ & -> & _ & ->)).
  all: try (intros [?|?]; done).
  all: repeat match goal with
         | H : workers _ !! _ = Some _ |- _ => apply Hex in H
         end.
  all: try (intuition congruence).
  all: try (destruct (wat x); intuition congruence).
Qed.

(** ** The wait predicate *)

Lemma pred_ok_step l s s' :
  mutex_ok s → pred_ok s → step l s = Some s' → pred_ok s'.
Proof.
  intros [Hmx _] Hp H k0 w0 Hk0 Hat. revert Hmx Hp Hk0 Hat.
  unfold n_notify.
  destruct l as [k j|k j|j|f|c]; step_inv H; intros Hmx Hp Hk0 Hat;
    proj; grow_fields; lk; simplify_eq; proj.
  all: try (destruct (wake_fields x) as (_ & _ & _ & Hwk); rewrite Hwk in Hat).
  all: try (destruct Hat; done).
  all: destruct Hat as [Hat|Hat].
  all: repeat match goal with
         | H : workers _ !! _ = Some ?w |- _ =>
             pose proof (Hp _ _ H); apply Hmx in H
         end.
  all: unfold n_notify in *.
  all: repeat match goal with H : q _ = _ |- _ => rewrite H in * end.
  all: sums.
  all: repeat match goal with
         | H : wat _ = _ |- _ => rewrite H in *
         | H : mutex _ = _ |- _ => rewrite H in *
         end.
  all: rewrite ?length_app; simpl in *.
  all: try lia.
  all: try (intuition (try congruence; try lia)).
  all: match goal with
       | H : wat (wake ?x) = _ |- _ =>
           destruct (wat x) eqn:?; simplify_eq; simpl in *; intuition congruence
       end.
Qed.

(** ** The invariant of the reachable states *)

Lemma Inv_step l s s' : Inv s → step l s = Some s' → Inv s'.
Proof.
  intros (Hm & Hi & Hp & He & Hd) H.
  split; [by eapply mutex_ok_step|].
  split; [by eapply ids_ok_step|].
  split; [by eapply pool_ok_step|].
  split; [by eapply exits_ok_step|by eapply pred_ok_step].
Qed.

Lemma Inv_start m : mgr_ok (with_mgr m init) → Inv (with_mgr m init).
Proof.
  intros Hm.
  assert (∀ (k : nat) (w : worker), (@nil worker) !! k = Some w → False) as Hnil.
  { intros k w Hk. by rewrite lookup_nil in Hk. }
  split; [split; [intros k w Hk; by apply Hnil in Hk|done]|].
  split; [intros x; split; [cbv; lia|reflexivity]|].
  split; [|split; intros k w Hk; by apply Hnil in Hk].
  split; [done|]. split; [apply NoDup_nil_2|].
  split; [unfold live, mgr_ok, size in *; destruct m; simpl in *; lia|].
  split; [done|].
  intros j id Hj. done.
Qed.

Lemma Inv_set_limit x s : Inv s → Inv (set_limit x s).
Proof. by destruct s. Qed.

Lemma Inv_constructed s : constructed s → Inv s.
Proof.
  intros [->|[n Hn]]; [by apply (Inv_start M_idle)|].
  destruct (Z.le_gt_cases 0 n) as [Hle|Hgt].
  - rewrite thread_pool_eq in Hn by done. simplify_eq.
    apply Inv_set_limit.
    apply (Inv_step (L_mgr 0) (with_mgr (R_start n) init)).
    + by apply Inv_start.
    + by apply ctor_resize.
  - by rewrite thread_pool_neg in Hn by lia.
Qed.

Lemma Inv_reachable s : reachable s → Inv s.
Proof.
  intros (s0 & tr & H0 & Hr).
  eapply (run_inv Inv); [apply Inv_step| |done]. by apply Inv_constructed.
Qed.

(** ** Termination *)




(** ** Progress *)

Lemma worker_enabled s k w :
  workers s !! k = Some w →
  wat w ≠ W_wait → wat w ≠ W_exit →
  mutex s = None ∨ holding (wat w) = true →
  ∃ j, is_Some (worker_step k j s).
Proof.
  intros Hk Hw He Hm. unfold worker_step. rewrite Hk. simpl.
  destruct (Queue_pop_enabled s) as (j & [r s1] & Hj).
  exists j. rewrite Hj. simpl.
  destruct (wat w) as [| | | | | | | | |[]|]; simpl; try done; eauto.
  all: try (destruct Hm as [->|]; try done; eauto).
  all: destruct (wflag w); eauto.
Qed.

Lemma quiescent_mutex s : mutex_ok s → quiescent s → mutex s = None.
Proof.
  intros [Hm Hh] Hq. destruct (mutex s) as [k|] eqn:Em; [|done].
  destruct (lookup_lt_is_Some_2 (workers s) k) as [w Hw]; [by apply Hh|].
  pose proof (proj2 (Hm _ _ Hw) eq_refl) as Hold.
  destruct (worker_enabled s k w) as (j & s1 & Hs); auto.
  - intros E. by rewrite E in Hold.
  - intros E. by rewrite E in Hold.
  - pose proof (Hq (L_worker k j) eq_refl) as Hn. simpl in Hn. congruence.
Qed.

Lemma quiescent_workers s k w :
  mutex_ok s → quiescent s → workers s !! k = Some w →
  wat w = W_wait ∨ wat w = W_exit.
Proof.
  intros Hm Hq Hk.
  assert (wat w = W_wait ∨ wat w = W_exit ∨
          (wat w ≠ W_wait ∧ wat w ≠ W_exit)) as [?|[?|[??]]];
    [by destruct (wat w); auto|by left|by right|].
  destruct (worker_enabled s k w) as (j & s1 & Hs); auto.
  - left. by apply quiescent_mutex.
  - pose proof (Hq (L_worker k j) eq_refl) as Hn. simpl in Hn. congruence.
Qed.

Lemma mgr_enabled s :
  pool_ok s → mutex s = None →
  (∀ k w, workers s !! k = Some w → wat w = W_wait ∨ wat w = W_exit) →
  mgr s ≠ M_idle → ∃ j, is_Some (mgr_step j s).
Proof.
  intros (Hf & Hnd & Hlive & Hmgr & Hslots) Hmx Hws Hidle.
  unfold mgr_ok, size in Hmgr.
  destruct (Queue_pop_enabled s) as (j & [r s1] & Hj).
  exists j. unfold mgr_step, size. rewrite Hmx, Hj. simpl.
  destruct (mgr s) as [|n|i n|n|b|i n| | |i|] eqn:Em; try done.
  - destruct (isStop s || isDone s); [done|].
    by destruct (Z.of_nat (length (threads s)) <=? n).
  - destruct (Z.leb_spec n i); [|done].
    destruct (Z.ltb_spec i 0); [lia|].
    destruct (lookup_lt_is_Some_2 (threads s) (Z.to_nat i)) as [t Ht]; [lia|].
    rewrite Hf, Ht. simpl. done.
  - destruct b; [by destruct (isDone s || isStop s)|by destruct (isStop s)].
  - destruct (Z.ltb_spec i n); [|done].
    destruct (Z.ltb_spec i 0); [lia|].
    destruct (lookup_lt_is_Some_2 (threads s) (Z.to_nat i)) as [t Ht]; [lia|].
    rewrite Hf, Ht. simpl. done.
  - by destruct r.
  - destruct (Z.ltb_spec i (Z.of_nat (length (threads s)))); [|done].
    destruct (Z.ltb_spec i 0); [lia|].
    destruct (lookup_lt_is_Some_2 (threads s) (Z.to_nat i)) as [t Ht]; [lia|].
    rewrite Ht. simpl.
    destruct (Hslots _ _ Ht) as (w & Hw & _ & Hsl). rewrite Hw. simpl.
    destruct (wdet w); [done|].
    unfold slot_ok in Hsl. rewrite Em in Hsl. destruct Hsl as (_ & Hnw & _).
    destruct (Hws _ _ Hw) as [Hx|Hx]; [done|by rewrite Hx].
  - by destruct r.
Qed.

Lemma quiescent_mgr s : Inv s → quiescent s → mgr s = M_idle.
Proof.
  intros (Hm & _ & Hp & _) Hq.
  assert (mgr s = M_idle ∨ mgr s ≠ M_idle) as [?|Hne];
    [destruct (mgr s); auto|done|].
  destruct (mgr_enabled s) as (j & s1 & Hs); auto.
  - by apply quiescent_mutex.
  - intros k w Hk. by eapply quiescent_workers.
  - pose proof (Hq (L_mgr j) eq_refl) as Hn. simpl in Hn. congruence.
Qed.

Lemma quiescent_pushers s k p :
  mutex_ok s → quiescent s → pushers s !! k = Some p →
  (∃ t, p = P_qwait t) ∨ p = P_ret.
Proof.
  intros Hm Hq Hk. pose proof (quiescent_mutex _ Hm Hq) as Hmx.
  destruct (notify_one_enabled (workers s)) as (j & ws & Hj).
  pose proof (Hq (L_pusher k j) eq_refl) as Hn. simpl in Hn.
  unfold pusher_step in Hn. rewrite Hk, Hmx, Hj in Hn. simpl in Hn.
  destruct p; eauto; try done. by destruct (Queue_push t s).
Qed.


(** ** Coming to rest *)







(** ** The stop flags *)

Lemma flags_step l s s' :
  step l s = Some s' →
  (isStop s = true → isStop s' = true) ∧ (isDone s = true → isDone s' = true).
Proof.
  intros H. destruct l as [k j|k j|j|f|c]; step_inv H; proj; grow_fields;
    split; congruence.
Qed.

Lemma flags_run tr s s' :
  run tr s = Some s' →
  (isStop s = true → isStop s' = true) ∧ (isDone s = true → isDone s' = true).
Proof.
  revert s. induction tr as [|l tr IH]; intros s; simpl.
  - by intros [= <-].
  - destruct (step l s) as [s1|] eqn:E; [|done]. simpl. intros Hr.
    apply IH in Hr. apply flags_step in E. tauto.
Qed.

Lemma done_step l s s' :
  step l s = Some s' → isStop s = true → isDone s' = isDone s.
Proof.
  intros H. destruct l as [k j|k j|j|f|c]; step_inv H; proj; grow_fields;
    try done; try congruence.
  all: intros Hs; rewrite Hs in *; by rewrite ?orb_true_r in *.
Qed.

Lemma done_run tr s s' :
  run tr s = Some s' → isStop s = true → isDone s' = isDone s.
Proof.
  revert s. induction tr as [|l tr IH]; intros s; simpl.
  - by intros [= <-].
  - destruct (step l s) as [s1|] eqn:E; [|done]. simpl. intros Hr Hs.
    rewrite (IH _ Hr); [by eapply done_step|].
    by apply (flags_step _ _ _ E).
Qed.

(** C4 (amended): once set, the stopping flag stays set, and so does the
    draining flag; on a pool that is stopping the draining flag no longer
    changes; and once either flag is set a call of [resize] returns with
    the pool unchanged, as does a call of [stop(true)]. *)
Theorem stop_flags_reject s tr s' :
  isStop s || isDone s = true → run tr s = Some s' →
  (isStop s = true → isStop s' = true) ∧
  (isDone s = true → isDone s' = true) ∧
  (isStop s = true → isDone s' = isDone s) ∧
  (mgr s' = M_idle →
   (∀ n j, 0 ≤ n → run [L_call (Resize n); L_mgr j] s' = Some s') ∧
   (∀ j, run [L_call (Stop true); L_mgr j] s' = Some s')).
Proof.
  intros Hs Hr. destruct (flags_run _ _ _ Hr) as [H1 H2].
  assert (isStop s' || isDone s' = true) as Hs'.
  { apply orb_true_iff in Hs as [?|?]; apply orb_true_iff; auto. }
  split; [done|]. split; [done|]. split; [by apply (done_run tr)|].
  intros Hidle. split.
  - intros n j Hn. simpl. unfold enter. rewrite Hidle.
    destruct (Z.leb_spec 0 n); [|lia]. simpl. unfold mgr_step. proj.
    rewrite Hs'. f_equal. destruct s'; simpl in *; by subst.
  - intros j. simpl. unfold enter. rewrite Hidle. simpl. unfold mgr_step. proj.
    rewrite orb_comm, Hs'. f_equal. destruct s'; simpl in *; by subst.
Qed.

Lemma stop_flags_reject_witness :
  isDone draining_state = true ∧ isStop draining_state = false ∧
  ∃ s', run stop_false_call draining_state = Some s' ∧
    isStop s' = true ∧ isDone s' = true ∧
    run [L_call (Resize 3); L_mgr 0]%nat s' = Some s'.
Proof.
  split; [reflexivity|]. split; [reflexivity|].
  destruct (run stop_false_call draining_state) as [s'|] eqn:E;
    [|by vm_compute in E].
  exists s'. split; [reflexivity|].
  destruct (stop_flags_reject draining_state stop_false_call s' eq_refl E)
    as (_ & Hd & _ & H).
  assert (isStop s' = true ∧ mgr s' = M_idle) as [Hs Hm].
  { vm_compute in E. injection E as <-. split; reflexivity. }
  split; [exact Hs|]. split; [exact (Hd eq_refl)|].
  destruct (H Hm) as [H1 _]. apply H1. lia.
Defined.

(** C4 (as stated, refuted): on a pool built by [thread_pool(0)], after
    [stop(true)] and then [stop(false)] have run to their ends both flags
    are set, and a call of push entered afterwards appends its task. *)
Lemma stop_flags_counterexample :
  ∃ s0 s1 s2, thread_pool 0 = Some s0 ∧ run both_stops s0 = Some s1 ∧
    isStop s1 = true ∧ isDone s1 = true ∧ mgr s1 = M_idle ∧ q s1 = [] ∧
    run [L_push ident; L_pusher 0 0]%nat s1 = Some s2 ∧
    tid <$> q s2 = [0%nat] ∧ pushers s2 = [P_notify].
Proof.
  destruct (thread_pool 0) as [s0|] eqn:E0; [|by vm_compute in E0].
  destruct (run both_stops s0) as [s1|] eqn:E1;
    [|by vm_compute in E0; simplify_eq; vm_compute in E1].
  destruct (run [L_push ident; L_pusher 0 0]%nat s1) as [s2|] eqn:E2;
    [|by vm_compute in E0; simplify_eq; vm_compute in E1; simplify_eq;
         vm_compute in E2].
  exists s0, s1, s2.
  vm_compute in E0. simplify_eq. vm_compute in E1. simplify_eq.
  vm_compute in E2. simplify_eq. repeat split; reflexivity.
Qed.

(** ** Failures of tasks *)

Lemma n_ran_0_find x ch :
  sum_list_with (λ e : nat * outcome, hit x (fst e)) ch = 0%nat →
  list_find (λ e, fst e = x) ch = None.
Proof.
  intros H. apply list_find_None. apply Forall_forall. intros e He Hx.
  pose proof (sum_list_with_in e (λ e : nat * outcome, hit x (fst e)) ch He)
    as Hle.
  simpl in Hle. unfold hit in Hle at 1. rewrite decide_True in Hle by done. lia.
Qed.

Lemma held_pos x s k w t :
  workers s !! k = Some w → wat w = W_exec t → x = tid t →
  (1 ≤ n_held x s)%nat.
Proof.
  intros Hk Hw ->. unfold n_held.
  pose proof (sum_list_with_in w (whit (tid t)) (workers s)) as Hle.
  unfold whit in Hle at 1. rewrite Hw in Hle. unfold hit in Hle at 1.
  rewrite decide_True in Hle by done. apply Hle.
  apply list_elem_of_lookup. eauto.
Qed.

(** C7: a worker that runs a task whose callable fails stores exactly that
    failure in the task's result channel (the future reports it, and the
    task has been invoked once), and goes on to its flag test like after
    any other task: it has not returned, and with its flag down it pops and
    starts the next queued task. *)
Theorem failure_contained s k w t e :
  reachable s → workers s !! k = Some w → wat w = W_exec t →
  body t (widx w) = Failure e →
  ∃ s1, (∀ j, step (L_worker k j) s = Some s1) ∧
    future_get (tid t) s1 = Some (Failure e) ∧ n_ran (tid t) s1 = 1%nat ∧
    workers s1 !! k = Some (at_ W_flag w) ∧
    (wflag w = false → ∀ t' r, q s = t' :: r →
     ∃ j s2, run [L_worker k j; L_worker k j] s1 = Some s2 ∧
             workers s2 !! k = Some (at_ (W_exec t') w) ∧ q s2 = r).
Proof.
  intros Hr Hk Hw Hb.
  destruct (Inv_reachable _ Hr) as (_ & Hids & _).
  destruct (Hids (tid t)) as [Hocc _]. unfold occ in Hocc.
  pose proof (held_pos (tid t) s k w t Hk Hw eq_refl) as Hheld.
  assert (n_ran (tid t) s = 0%nat) as Hran by lia.
  set (s1 := goto k W_flag (with_chan (chan s ++ [(tid t, Failure e)]) s)).
  assert (workers s1 !! k = Some (at_ W_flag w)) as Hk1.
  { unfold s1. proj. by rewrite list_lookup_alter_eq, Hk. }
  exists s1. split; [|split; [|split; [|split]]].
  - intros j. simpl. unfold worker_step. rewrite Hk. simpl. by rewrite Hw, Hb.
  - unfold future_get, s1. proj.
    rewrite list_find_app_r by by apply n_ran_0_find.
    simpl. rewrite decide_True by done. done.
  - unfold n_ran in *. unfold s1. proj. rewrite sum_list_with_app, Hran. simpl.
    unfold hit. by rewrite decide_True.
  - done.
  - intros Hf t' r Hq.
    destruct (notify_one_q_enabled (pushers s)) as (j & ps & Hj).
    set (s2 := goto k W_pop s1).
    assert (worker_step k j s1 = Some s2) as H1.
    { unfold worker_step. rewrite Hk1. simpl. by rewrite Hf. }
    assert (workers s2 !! k = Some (at_ W_pop w)) as Hk2.
    { unfold s2. proj. by rewrite list_lookup_alter_eq, Hk1. }
    set (s3 := goto k (W_exec t') (with_pushers ps (with_q r s2))).
    assert (worker_step k j s2 = Some s3) as H2.
    { unfold worker_step, Queue_pop. rewrite Hk2. simpl.
      change (q s2) with (q s). change (pushers s2) with (pushers s).
      by rewrite Hq, Hj. }
    exists j, s3. split; [|split].
    + simpl. rewrite H1. simpl. by rewrite H2.
    + unfold s3. proj. by rewrite list_lookup_alter_eq, Hk2.
    + done.
Qed.

Lemma failing_state_reachable : reachable failing_state.
Proof.
  destruct (thread_pool 1) as [s0|] eqn:E0; [|by vm_compute in E0].
  exists s0,
    [L_push always_fails; L_pusher 0 0; L_worker 0 0;
     L_push ident; L_pusher 1 0]%nat.
  split; [right; by exists 1|].
  vm_compute in E0. simplify_eq. reflexivity.
Qed.

Lemma failure_contained_witness :
  ∃ s1, step (L_worker 0 0) failing_state = Some s1 ∧
    future_get 0 s1 = Some (Failure 7) ∧
    ∃ j s2, run [L_worker 0 j; L_worker 0 j] s1 = Some s2 ∧
      workers s2 !! 0%nat =
      Some (Worker 0 false false (W_exec (Task 1 ident))).
Proof.
  destruct (failure_contained failing_state 0
              (Worker 0 false false (W_exec (Task 0 always_fails)))
              (Task 0 always_fails) 7)
    as (s1 & H1 & H2 & _ & _ & H5);
    [apply failing_state_reachable|reflexivity|reflexivity|reflexivity|].
  exists s1. split; [apply H1|]. split; [exact H2|].
  destruct (H5 eq_refl (Task 1 ident) [] eq_refl) as (j & s2 & Hr & Hw & _).
  exists j, s2. split; [exact Hr|exact Hw].
Defined.

(** ** resize *)









Lemma pool3_reachable : reachable pool3.
Proof. exists pool3, []. split; [right; by exists 3|done]. Qed.


(** ** stop(false) *)











Lemma n_held_rest x s :
  (∀ k w, workers s !! k = Some w → wat w = W_wait ∨ wat w = W_exit) →
  n_held x s = 0%nat.
Proof.
  intros Hws. apply sum_list_with_zero, Forall_forall.
  intros w [k Hk]%list_elem_of_lookup. unfold whit.
  by destruct (Hws _ _ Hk) as [->| ->].
Qed.


Lemma n_held_pos k w t s :
  workers s !! k = Some w → wat w = W_exec t ∨ wat w = W_dec (Some t) →
  (1 ≤ n_held (tid t) s)%nat.
Proof.
  intros Hk Hw.
  pose proof (sum_list_with_in w (whit (tid t)) (workers s)) as Hle.
  unfold whit in Hle at 1.
  assert (match wat w with
          | W_exec t0 | W_dec (Some t0) => hit (tid t) (tid t0)
          | _ => 0%nat
          end = 1%nat) as E.
  { destruct Hw as [-> | ->]; unfold hit; by rewrite decide_True. }
  rewrite E in Hle. apply Hle. apply list_elem_of_lookup. eauto.
Qed.




Lemma queued_state_reachable : reachable queued_state.
Proof.
  destruct (thread_pool 1) as [s0|] eqn:E0; [|by vm_compute in E0].
  exists s0, [L_push ident; L_pusher 0 0; L_pusher 0 0]%nat.
  split; [right; by exists 1|].
  vm_compute in E0. simplify_eq. reflexivity.
Qed.



(** ** stop(true) *)










Lemma returned_counts x s :
  Forall returned (pushers s) → n_pending x s = 0%nat ∧ n_notify s = 0%nat.
Proof.
  intros Hps. split; apply sum_list_with_zero;
    (eapply Forall_impl; [exact Hps|]); by intros p ->.
Qed.


(** *** Calls of push going on *)














Lemma racing_state_reachable : reachable racing_state.
Proof.
  destruct (thread_pool 1) as [s0|] eqn:E0; [|by vm_compute in E0].
  exists s0, [L_worker 0 0; L_worker 0 0; L_worker 0 0; L_push ident;
              L_pusher 0 0]%nat.
  split; [right; by exists 1|].
  vm_compute in E0. simplify_eq. reflexivity.
Qed.



(** * Further properties *)

(** ** More invariants of the reachable states *)

(** Sums over updated lists, with the lemmas of the summed function. *)
Ltac sums_with wake_lemma spawned_lemma :=
  unfold notify_all;
  repeat first
    [ rewrite sum_list_with_app
    | rewrite sum_list_with_fmap_same by (intros; first [apply wake_lemma|done])
    | rewrite sum_list_with_alter_same by (intros; done)
    | rewrite spawned_lemma
    | match goal with
      | H : ?l !! ?k = Some ?x |- context [sum_list_with ?f (alter ?g ?k ?l)] =>
          let E := fresh "E" in
          pose proof (sum_list_with_alter f g l k x H) as E;
          let n := fresh "n" in
          set (n := sum_list_with f (alter g k l)) in *; clearbody n
      | H : ?l !! ?k = Some ?x |- context [sum_list_with ?f (<[?k:=?y]> ?l)] =>
          let E := fresh "E" in
          pose proof (sum_list_with_insert f l k x y H) as E;
          let n := fresh "n" in
          set (n := sum_list_with f (<[k:=y]> l)) in *; clearbody n
      end ].

Lemma counted_wake w : counted (wake w) = counted w.
Proof.
  unfold counted. destruct (wake_fields w) as (_&_&_&->). by destruct (wat w).
Qed.

Lemma counted_spawned cnt i : sum_list_with counted (spawned cnt i) = 0%nat.
Proof. revert i. induction cnt; intros i; simpl; auto. Qed.

Lemma idle_ok_step l s s' : idle_ok s → step l s = Some s' → idle_ok s'.
Proof.
  unfold idle_ok. intros Hi H. revert Hi.
  destruct l as [k j|k j|j|f|c]; step_inv H; intros Hi; proj; grow_fields; lk;
    simplify_eq; proj.
  all: sums_with counted_wake counted_spawned.
  all: unfold counted in *; proj.
  all: repeat match goal with
         | H : wat _ = _ |- _ => rewrite H in *
         end.
  all: simpl in *; try lia.
Qed.

Lemma counted_le ws : (sum_list_with counted ws ≤ length ws)%nat.
Proof.
  induction ws as [|w ws IH]; simpl; [lia|].
  assert (counted w ≤ 1)%nat; [|lia].
  unfold counted. destruct (wat w); lia.
Qed.

Lemma conserved_step l s s' :
  ids_ok s → conserved s → step l s = Some s' → conserved s'.
Proof.
  intros Hids Hc H x. rewrite (occ_step _ _ _ x H), (next_id_step _ _ _ H).
  destruct (Hids x) as [_ H0]. specialize (Hc x).
  destruct l; rewrite ?Nat.add_0_r; try (intros; rewrite Hc; lia).
  unfold hit. intros Hx. case_decide; [subst; rewrite H0; lia|].
  rewrite Hc; lia.
Qed.

Lemma waiting_none ws :
  Forall (λ w, is_wait w = false) ws → sum_list_with waiting ws = 0%nat.
Proof.
  intros H. apply sum_list_with_zero. eapply Forall_impl; [done|].
  intros w Hw. unfold waiting. by rewrite Hw.
Qed.

Lemma waiting_wake ws : sum_list_with waiting (wake <$> ws) = 0%nat.
Proof.
  apply sum_list_with_zero, Forall_fmap, Forall_forall. intros w _. simpl.
  unfold waiting, is_wait. destruct (wake_fields w) as (_&_&_&->).
  by destruct (wat w).
Qed.

Lemma waiting_spawned cnt i : sum_list_with waiting (spawned cnt i) = 0%nat.
Proof. revert i. induction cnt; intros i; simpl; auto. Qed.

Lemma woken_spawned cnt i : sum_list_with woken (spawned cnt i) = 0%nat.
Proof. revert i. induction cnt; intros i; simpl; auto. Qed.

Lemma wake_ok_step l s s' :
  mutex_ok s → pred_ok s → wake_ok s → step l s = Some s' → wake_ok s'.
Proof.
  unfold wake_ok, n_wait, n_woken, n_notify. intros [Hmx _] Hp Hk H.
  revert Hmx Hp Hk. unfold pred_ok, n_notify.
  destruct l as [k j|k j|j|f|c]; step_inv H; intros Hmx Hp Hk;
    proj; grow_fields; lk; simplify_eq; proj.
  all: rewrite ?waiting_wake; try (intros; lia).
  all: repeat match goal with
         | H : Forall (λ w, is_wait w = false) _ |- _ =>
             apply waiting_none in H
         end.
  all: try match goal with
           | H : (1 ≤ sum_list_with waiting (_ ++ _))%nat |- _ =>
               rewrite sum_list_with_app, waiting_spawned in H; revert H
           end.
  all: repeat match goal with H : q _ = _ |- _ => rewrite H in * end.
  all: sums_with waiting_spawned woken_spawned.
  all: rewrite ?waiting_spawned.
  all: repeat match goal with
         | H : workers _ !! _ = Some ?w |- _ =>
             pose proof (Hp _ _ H); apply Hmx in H
         end.
  all: unfold waiting, woken, is_wait in *; proj.
  all: repeat match goal with
         | H : wat _ = _ |- _ => rewrite H in *
         | H : mutex _ = _ |- _ => rewrite H in *
         end.
  all: rewrite ?length_app; simpl in *.
  all: try lia.
  all: try (intuition (try congruence; try lia)).
Qed.

Lemma qwaiting_none ps :
  Forall (λ p, is_qwait p = false) ps → sum_list_with qwaiting ps = 0%nat.
Proof.
  intros H. apply sum_list_with_zero. eapply Forall_impl; [done|].
  intros p Hp. unfold qwaiting. by rewrite Hp.
Qed.

Lemma qwait_ok_step l s s' : qwait_ok s → step l s = Some s' → qwait_ok s'.
Proof.
  unfold qwait_ok, n_qwait, n_qwoken. intros Hk H. revert Hk.
  destruct l as [k j|k j|j|f|c]; step_inv H; intros Hk;
    proj; grow_fields; lk; simplify_eq; proj.
  all: repeat match goal with
         | H : Forall (λ w, is_qwait w = false) _ |- _ =>
             apply qwaiting_none in H
         end.
  all: repeat match goal with H : q _ = _ |- _ => rewrite H in * end.
  all: sums_with waiting_spawned woken_spawned.
  all: unfold qwaiting, qwoken, is_qwait in *; proj.
  all: rewrite ?length_app; simpl in *.
  all: try lia.
  all: try match goal with
           | H : (_ <=? _)%N = true |- _ => apply N.leb_le in H
           | H : (_ <=? _)%N = false |- _ => apply N.leb_gt in H
           end.
  all: try (intros; lia).
Qed.

(** Every transition keeps the workers where they are and what they were
    started with. *)
Lemma worker_keeps l s s' k w :
  step l s = Some s' → workers s !! k = Some w →
  ∃ w', workers s' !! k = Some w' ∧ widx w' = widx w ∧
        (wflag w = true → wflag w' = true) ∧
        (wdet w = true → wdet w' = true) ∧
        (wat w = W_exit → wat w' = W_exit).
Proof.
  intros H Hk. revert Hk.
  destruct l as [k0 j|k0 j|j|f|c]; step_inv H; intros Hk; proj; grow_fields.
  all: unfold notify_all;
    rewrite ?list_lookup_fmap, ?list_lookup_alter;
    repeat goal_decide; simplify_eq;
    try (rewrite lookup_app_l by (by eapply lookup_lt_Some));
    lk; simplify_eq; rewrite ?list_lookup_alter;
    repeat goal_decide; simplify_eq;
    repeat match goal with H : workers _ !! _ = Some _ |- _ => rewrite H end;
    simpl; (eexists; split; [done|]); proj;
    try (destruct (wake_fields w) as (-> & -> & -> & ->));
    try (split; [done|]); try (split; [done|]); try (split; [done|]);
    try done; try congruence.
  all: intros E; by rewrite E.
Qed.

Lemma spawned_lookup_lt cnt i k :
  (k < cnt)%nat →
  spawned cnt i !! k = Some (Worker (i + Z.of_nat k) false false W_pop).
Proof.
  revert i k. induction cnt as [|c IH]; intros i [|k] Hk; simpl; try lia.
  - do 2 f_equal. lia.
  - rewrite IH by lia. do 2 f_equal. lia.
Qed.

(** Where the thread in a slot comes from: it was in that slot before the
    transition, or the transition is the loop of [resize] that has just
    started it, with the slot as its index. *)
Lemma threads_step l s s' j id :
  step l s = Some s' → threads s' !! j = Some id →
  threads s !! j = Some id ∨
  workers s !! id = None ∧
  workers s' !! id = Some (Worker (Z.of_nat j) false false W_pop).
Proof.
  intros H Hj. revert Hj.
  destruct l as [k0 j0|k0 j0|j0|f|c]; step_inv H; proj; intros Hj;
    try by left.
  - (* grow *)
    destruct (grow_spec (Z.to_nat (n - size s)) (size s) s) as (Ew & Et & _).
    rewrite Et in Hj. rewrite Ew.
    apply lookup_app_Some in Hj as [Hj|[Hge Hj]]; [by left|right].
    apply lookup_seq in Hj as [-> Hlt].
    split; [apply lookup_ge_None_2; lia|].
    rewrite lookup_app_r by lia.
    replace (length (workers s) + (j - length (threads s)) - length (workers s))%nat
      with (j - length (threads s))%nat by lia.
    rewrite spawned_lookup_lt by done. unfold size. do 2 f_equal. lia.
  - left. by apply lookup_take_Some in Hj as [? _].
Qed.

Lemma index_ok_step l s s' : index_ok s → step l s = Some s' → index_ok s'.
Proof.
  intros Hi H j id Hj.
  destruct (threads_step _ _ _ _ _ H Hj) as [Hj0|[_ Hnew]].
  - destruct (Hi _ _ Hj0) as (w & Hw & Hx).
    destruct (worker_keeps _ _ _ _ _ H Hw) as (w' & Hw' & Hx' & _).
    exists w'. split; [done|congruence].
  - eauto.
Qed.

Lemma pending_ok_step l s s' :
  pending_ok s → step l s = Some s' → pending_ok s'.
Proof.
  intros Hex H k0 w0 Hk0. revert Hex Hk0. unfold pending_ok.
  destruct l as [k j|k j|j|f|c]; step_inv H; intros Hex;
    proj; grow_fields; intros; lk; simplify_eq; proj.
  all: try (destruct (wake_fields x) as (_ & -> & _ & ->)).
  all: try done.
  all: repeat match goal with
         | H : workers _ !! ?k = Some ?w |- _ =>
             let H' := fresh in pose proof (Hex k w H) as H'; clear H
         end.
  all: repeat match goal with
         | H : mgr _ = _ |- _ => rewrite H in *
         end.
  all: simpl in *.
  all: try tauto.
  all: try (intros; congruence).
  all: destruct (wake_fields x) as (_ & _ & _ & Hw); rewrite Hw in *;
    by destruct (wat x).
Qed.

Lemma deleted_step l s s' :
  step l s = Some s' → ¬ in_stop (mgr s) →
  destroyed s' = destroyed s ∧
  (in_stop (mgr s') → isStop s' = true ∨ isDone s' = true).
Proof.
  intros H.
  destruct l as [k j|k j|j|f|c]; step_inv H;
    proj; grow_fields; simplify_eq; proj.
  all: repeat match goal with
         | H : mgr _ = _ |- _ => rewrite H in *
         end.
  all: simpl; try tauto; auto.
Qed.

Lemma deleted_ok_step l s s' :
  deleted_ok s → step l s = Some s' → deleted_ok s'.
Proof.
  intros Hd H Hs' Hd'. destruct (flags_step _ _ _ H) as [H1 H2].
  destruct (Hd) as [Hd0 Hns].
  - destruct (isStop s); [|done]. rewrite H1 in Hs'; done.
  - destruct (isDone s); [|done]. rewrite H2 in Hd'; done.
  - destruct (deleted_step _ _ _ H Hns) as [-> Hin]. split; [done|].
    intros [?|?]%Hin; congruence.
Qed.

Lemma worker_origin l s s' k w' :
  step l s = Some s' → workers s' !! k = Some w' →
  is_Some (workers s !! k) ∨ k ∈ threads s'.
Proof.
  intros H Hk. revert Hk.
  destruct l as [k0 j|k0 j|j|f|c]; step_inv H; proj; intros Hk.
  all: try (left; apply lookup_lt_is_Some; apply lookup_lt_Some in Hk;
            unfold notify_all in Hk;
            by rewrite ?length_alter, ?length_fmap in Hk).
  all: try (left; lk; simplify_eq; eauto; fail).
  destruct (grow_spec (Z.to_nat (n - size s)) (size s) s) as (Ew & Et & _).
  rewrite Ew in Hk. rewrite Et.
  apply lookup_app_Some in Hk as [Hk|[Hge Hk]]; [by left; eauto|right].
  apply lookup_lt_Some in Hk. rewrite spawned_length in Hk.
  apply elem_of_app. right. apply elem_of_seq. lia.
Qed.

Lemma threads_kept l s s' :
  step l s = Some s' →
  threads s ⊆ threads s' ∨
  (∃ n, mgr s = R_notify n ∧ threads s' = take (Z.to_nat n) (threads s)) ∨
  mgr s = S_clear2.
Proof.
  intros H.
  destruct l as [k0 j|k0 j|j|f|c]; step_inv H; proj; try by left.
  all: try by (right; left; eauto).
  all: try by (right; right).
  left. destruct (grow_spec (Z.to_nat (n - size s)) (size s) s) as (_ & -> & _).
  intros x Hx. apply elem_of_app. by left.
Qed.

Lemma gone_ok_step l s s' :
  pool_ok s → gone_ok s → step l s = Some s' → gone_ok s'.
Proof.
  intros (_ & _ & _ & _ & Hslots) Hg H k w' Hk.
  destruct (worker_origin _ _ _ _ _ H Hk) as [[w Hw]|?]; [|by left].
  destruct (worker_keeps _ _ _ _ _ H Hw) as (w2 & Hw2 & _ & Hf & _ & He).
  assert (w2 = w') as -> by congruence.
  destruct (Hg _ _ Hw) as [Hin|[?|?]]; [|by auto..].
  destruct (threads_kept _ _ _ H) as [Hsub|[(n & Hm & Ht)|Hm]].
  - left. by apply Hsub.
  - apply list_elem_of_lookup in Hin as [j Hj].
    destruct (Hslots _ _ Hj) as (w0 & Hw0 & Hatt & _).
    assert (w0 = w) as -> by congruence.
    unfold att_ok, live in Hatt. rewrite Hm in Hatt.
    case_decide as Hlt.
    + left. rewrite Ht. apply list_elem_of_lookup. exists j.
      apply lookup_take_Some. split; [done|lia].
    + right. left. apply Hf. tauto.
  - apply list_elem_of_lookup in Hin as [j Hj].
    destruct (Hslots _ _ Hj) as (w0 & Hw0 & _ & Hsl).
    assert (w0 = w) as -> by congruence.
    unfold slot_ok in Hsl. rewrite Hm in Hsl. auto.
Qed.

Lemma Inv_ext_step l s s' :
  Inv s → Inv_ext s → step l s = Some s' → Inv_ext s'.
Proof.
  intros (Hm & Hi & Hp & He & Hd) (H1 & H2 & H3 & H4 & H5 & H6 & H7 & H8) H.
  split; [by eapply idle_ok_step|].
  split; [by eapply conserved_step|].
  split; [by eapply index_ok_step|].
  split; [by eapply wake_ok_step|].
  split; [by eapply qwait_ok_step|].
  split; [by eapply pending_ok_step|].
  split; [by eapply gone_ok_step|by eapply deleted_ok_step].
Qed.

Lemma Inv_ext_start m : ¬ in_stop m → Inv_ext (with_mgr m init).
Proof.
  intros Hm.
  assert (∀ (k : nat) (w : worker), (@nil worker) !! k = Some w → False) as Hnil.
  { intros k w Hk. by rewrite lookup_nil in Hk. }
  split; [done|]. split; [intros x Hx; simpl in Hx; lia|].
  split; [intros j id Hj; done|].
  split; [intros Hx; cbv in Hx; lia|].
  split; [intros _ Hx; cbv in Hx; lia|].
  split; [intros k w Hk; by apply Hnil in Hk|].
  split; [intros k w Hk; by apply Hnil in Hk|].
  intros _ _. split; done.
Qed.

Lemma Inv_ext_set_limit x s :
  pushers s = [] → Inv_ext s → Inv_ext (set_limit x s).
Proof.
  intros Hp (H1 & H2 & H3 & H4 & H5 & H6 & H7 & H8).
  split; [by destruct s|]. split; [by destruct s|]. split; [by destruct s|].
  split; [by destruct s|]. split; [|by destruct s].
  intros _. unfold n_qwait. simpl. rewrite Hp. simpl. lia.
Qed.

Lemma Inv_ext_constructed s : constructed s → Inv_ext s.
Proof.
  intros [->|[n Hn]]; [by apply (Inv_ext_start M_idle); auto|].
  destruct (Z.le_gt_cases 0 n) as [Hle|Hgt].
  - rewrite thread_pool_eq in Hn by done. simplify_eq.
    apply Inv_ext_set_limit.
    { simpl. by destruct (grow_frame (Z.to_nat n) 0 (with_mgr (R_start n) init))
        as (_&_&_&_&_&_&->&_). }
    apply (Inv_ext_step (L_mgr 0) (with_mgr (R_start n) init)).
    + by apply Inv_start.
    + apply Inv_ext_start. auto.
    + by apply ctor_resize.
  - by rewrite thread_pool_neg in Hn by lia.
Qed.

Lemma Inv_ext_reachable s : reachable s → Inv s ∧ Inv_ext s.
Proof.
  intros (s0 & tr & H0 & Hr).
  eapply (run_inv (λ s, Inv s ∧ Inv_ext s)); [| |done].
  - intros l s1 s2 [Hi He] Hs. split; [by eapply Inv_step|by eapply Inv_ext_step].
  - split; [by apply Inv_constructed|by apply Inv_ext_constructed].
Qed.

(** ** Where the tasks are *)

(** X1: every task handed to [push] so far is in exactly one place: still
    with its call of push, in the queue, claimed by a worker, invoked (once),
    or deleted by [clear_queue] (once); an identity not yet handed out is
    nowhere.  So no task is lost or duplicated, none is invoked twice, and
    none is both invoked and deleted. *)
Theorem task_in_one_place s x :
  reachable s →
  (n_pending x s + n_queued x s + n_held x s + n_ran x s + n_destroyed x s)%nat
  = if decide (x < next_id s)%nat then 1%nat else 0%nat.
Proof.
  intros Hr. destruct (Inv_ext_reachable _ Hr) as [(_ & Hids & _) (_ & Hc & _)].
  case_decide as Hx; [by apply Hc|]. apply Hids. lia.
Qed.

Lemma task_in_one_place_witness :
  (n_pending 1 failing_state + n_queued 1 failing_state +
   n_held 1 failing_state + n_ran 1 failing_state +
   n_destroyed 1 failing_state)%nat = 1%nat.
Proof. exact (task_in_one_place failing_state 1 failing_state_reachable). Defined.

(** X2: only [stop] deletes tasks: as long as the pool is neither stopping
    nor draining, no task has been deleted, whatever calls of [resize] and
    [push] there have been. *)
Theorem only_stop_deletes s :
  reachable s → isStop s = false → isDone s = false → destroyed s = [].
Proof.
  intros Hr Hs Hd.
  destruct (Inv_ext_reachable _ Hr) as [_ (_&_&_&_&_&_&_&Hdel)].
  by destruct (Hdel Hs Hd).
Qed.

Lemma only_stop_deletes_witness : destroyed queued_state = [].
Proof.
  exact (only_stop_deletes queued_state queued_state_reachable eq_refl eq_refl).
Defined.

(** ** The pool at rest *)

Lemma rest_state_reachable : reachable rest_state.
Proof.
  apply (reachable_run (replicate 8 (L_worker 0 0)) queued_state);
    [apply queued_state_reachable|reflexivity].
Qed.

Lemma drained_state_reachable : reachable drained_state.
Proof.
  apply (reachable_run (L_call (Stop true) :: drain_trace) queued_state);
    [apply queued_state_reachable|reflexivity].
Qed.

Lemma rest_state_quiescent : quiescent rest_state.
Proof.
  intros [k j|k j|j|f|c] Hl; try done.
  - by destruct k as [|[|k]].
  - by destruct k as [|[|k]].
Qed.

Lemma drained_state_quiescent : quiescent drained_state.
Proof.
  intros [k j|k j|j|f|c] Hl; try done.
  - by destruct k as [|[|k]].
  - by destruct k as [|[|k]].
Qed.

Lemma rest_counts s :
  mutex_ok s → quiescent s →
  n_notify s = 0%nat ∧ n_woken s = 0%nat ∧ n_qwoken s = 0%nat ∧
  (∀ x, n_held x s = 0%nat).
Proof.
  intros Hmx Hq.
  split; [|split; [|split]].
  - apply sum_list_with_zero, Forall_forall.
    intros p [k Hk]%list_elem_of_lookup.
    by destruct (quiescent_pushers _ _ _ Hmx Hq Hk) as [[t ->]| ->].
  - apply sum_list_with_zero, Forall_forall.
    intros w [k Hk]%list_elem_of_lookup. unfold woken.
    by destruct (quiescent_workers _ _ _ Hmx Hq Hk) as [->| ->].
  - apply sum_list_with_zero, Forall_forall.
    intros p [k Hk]%list_elem_of_lookup.
    by destruct (quiescent_pushers _ _ _ Hmx Hq Hk) as [[t ->]| ->].
  - intros x. apply n_held_rest. intros k w Hk.
    by eapply quiescent_workers.
Qed.

Lemma ran_ready x s : (1 ≤ n_ran x s)%nat → is_Some (future_get x s).
Proof.
  unfold n_ran, future_get. intros Hn.
  destruct (list_find (λ e, fst e = x) (chan s)) as [r|] eqn:E; [by eauto|].
  exfalso. revert Hn. clear -E.
  assert (sum_list_with (λ e : nat * outcome, hit x (fst e)) (chan s) = 0%nat);
    [|lia].
  apply sum_list_with_zero, Forall_forall. intros e He.
  eapply list_find_None in E. rewrite Forall_forall in E.
  specialize (E _ He). unfold hit. case_decide; [|done]. simpl in *. congruence.
Qed.

Lemma gone_at_rest s k w :
  Inv s → Inv_ext s → quiescent s → workers s !! k = Some w →
  k ∉ threads s → wat w = W_exit.
Proof.
  intros Hinv (_&_&_&_&_&Hpend&Hgone&_) Hq Hk Hn.
  pose proof Hinv as (Hmx & _).
  destruct (quiescent_workers _ _ _ Hmx Hq Hk) as [Hw|?]; [|done].
  destruct (Hgone _ _ Hk) as [?|[Hf|?]]; [done| |done].
  pose proof (Hpend _ _ Hk Hw Hf) as Ha.
  rewrite (quiescent_mgr _ Hinv Hq) in Ha. done.
Qed.

(** X3: a running pool with a queue limit and at least one thread, when no
    thread can run a statement any more: the queue is empty, every call of
    push has returned, nothing has been deleted, and every task handed to
    [push] has been invoked exactly once, its future being ready.  No
    wake-up is lost and no call of push stays blocked. *)
Theorem rest_all_done s :
  reachable s → quiescent s →
  limit_ s ≠ 0%N → isStop s = false → isDone s = false → 0 < size s →
  q s = [] ∧ Forall returned (pushers s) ∧ destroyed s = [] ∧
  ∀ x, (x < next_id s)%nat →
       n_ran x s = 1%nat ∧ is_Some (future_get x s).
Proof.
  intros Hr Hq Hl Hs Hd Hsz.
  destruct (Inv_ext_reachable _ Hr)
    as [Hinv (_ & Hc & _ & Hwk & Hqw & _ & _ & Hdel)].
  pose proof Hinv as (Hmx & _ & (_ & _ & _ & _ & Hslots) & Hex & _).
  pose proof (quiescent_mgr _ Hinv Hq) as Hm.
  destruct (rest_counts _ Hmx Hq) as (Hn & Hw & Hqk & Hheld).
  (* the thread in slot 0 waits *)
  destruct (lookup_lt_is_Some_2 (threads s) 0) as [id Hid];
    [unfold size in Hsz; lia|].
  destruct (Hslots _ _ Hid) as (w & Hw0 & Hatt & _).
  unfold att_ok, live in Hatt. rewrite Hm in Hatt.
  apply lookup_lt_Some in Hid as Hlt. case_decide; [|lia].
  destruct Hatt as [_ Hfl]. specialize (Hfl Hs).
  assert (wat w = W_wait) as Hwait.
  { destruct (quiescent_workers _ _ _ Hmx Hq Hw0) as [?|He]; [done|].
    destruct (Hex _ _ Hw0) as [?|?]; [by right|congruence|congruence]. }
  assert (q s = []) as Hq0.
  { assert (1 ≤ n_wait s)%nat as H1.
    { unfold n_wait.
      pose proof (sum_list_with_in w waiting (workers s)) as Hle.
      assert (waiting w = 1%nat) as E
        by (unfold waiting, is_wait; by rewrite Hwait).
      rewrite E in Hle. apply Hle, list_elem_of_lookup. eauto. }
    specialize (Hwk H1). rewrite Hn, Hw in Hwk.
    destruct (q s); [done|simpl in Hwk; lia]. }
  assert (Forall returned (pushers s)) as Hret.
  { apply Forall_forall. intros p [k Hk]%list_elem_of_lookup.
    destruct (quiescent_pushers _ _ _ Hmx Hq Hk) as [[t ->]| ->]; [|done].
    exfalso.
    assert (1 ≤ n_qwait s)%nat as H1.
    { unfold n_qwait.
      pose proof (sum_list_with_in (P_qwait t) qwaiting (pushers s)) as Hle.
      apply Hle, list_elem_of_lookup. eauto. }
    specialize (Hqw Hl H1). rewrite Hq0, Hqk in Hqw. simpl in Hqw. lia. }
  destruct (Hdel Hs Hd) as [Hdes _].
  repeat (split; [done|]).
  intros x Hx. specialize (Hc x Hx). unfold occ in Hc.
  destruct (returned_counts x s Hret) as [Hp _].
  assert (n_ran x s = 1%nat) as Hran.
  { rewrite Hp, Hheld in Hc. unfold n_queued, n_destroyed in Hc.
    rewrite Hq0, Hdes in Hc. simpl in Hc. lia. }
  split; [done|]. apply ran_ready. lia.
Qed.

Lemma rest_all_done_witness :
  q rest_state = [] ∧ n_ran 0 rest_state = 1%nat.
Proof.
  destruct (rest_all_done rest_state rest_state_reachable rest_state_quiescent)
    as (Hq & _ & _ & Hx); [done|done|done|done|].
  split; [exact Hq|]. apply (Hx 0%nat). simpl. lia.
Defined.



(** X5: the thread function returns only on command: a worker that has
    returned had its own flag set or found the pool draining. *)
Theorem worker_returns_on_command s k w :
  reachable s → workers s !! k = Some w → wat w = W_exit →
  isDone s = true ∨ wflag w = true.
Proof.
  intros Hr Hk He. destruct (Inv_reachable _ Hr) as (_ & _ & _ & Hex & _).
  eapply Hex; eauto.
Qed.

Lemma worker_returns_on_command_witness :
  ∃ w, workers drained_state !! 0%nat = Some w ∧ wat w = W_exit ∧
       (isDone drained_state = true ∨ wflag w = true).
Proof.
  exists (Worker 0 false false W_exit). split; [reflexivity|].
  split; [reflexivity|].
  exact (worker_returns_on_command drained_state 0
           (Worker 0 false false W_exit) drained_state_reachable
           eq_refl eq_refl).
Defined.

(** X6: no thread is left behind: at rest, every thread that is no longer
    in the pool's vector (detached by a shrinking [resize], or joined by
    [stop]) has returned. *)
Theorem removed_threads_return s k w :
  reachable s → quiescent s → workers s !! k = Some w → k ∉ threads s →
  wat w = W_exit.
Proof.
  intros Hr Hq Hk Hn. destruct (Inv_ext_reachable _ Hr) as [Hinv Hext].
  by eapply gone_at_rest.
Qed.

Lemma removed_threads_return_witness :
  ∃ w, workers drained_state !! 0%nat = Some w ∧
       threads drained_state = [] ∧ wat w = W_exit.
Proof.
  exists (Worker 0 false false W_exit). split; [reflexivity|].
  split; [reflexivity|].
  apply (removed_threads_return drained_state 0 (Worker 0 false false W_exit)
           drained_state_reachable drained_state_quiescent eq_refl).
  simpl. apply not_elem_of_nil.
Defined.

(** ** Tasks once claimed, results once stored *)

Lemma claimed_any_step x l s s' :
  ids_ok s → (1 ≤ n_held x s + n_ran x s)%nat → step l s = Some s' →
  (1 ≤ n_held x s' + n_ran x s')%nat.
Proof.
  intros Hids Hc H. destruct (Hids x) as [Hocc Hnew].
  revert Hc Hocc Hnew. unfold occ, n_pending, n_queued, n_held, n_ran, n_destroyed.
  destruct l as [k j|k j|j|f|c]; step_inv H; proj; grow_fields; lk;
      simplify_eq; proj.
  all: repeat match goal with H : q _ = _ |- _ => rewrite H in * end.
  all: sums.
  all: unfold whit, phit in *; proj.
  all: repeat match goal with
         | H : wat _ = _ |- _ => rewrite H in *
         end.
  all: simpl in *; try lia.
Qed.

(** X7: a task a worker has claimed is run, whatever happens to the pool
    afterwards ([stop], [resize], more calls of push): in every later state
    it is neither back in the queue nor deleted, it is still held by its
    worker or has been invoked exactly once, and at rest it has been invoked
    and its future is ready. *)
Theorem claimed_task_runs s k w t tr s' :
  reachable s → workers s !! k = Some w →
  wat w = W_exec t ∨ wat w = W_dec (Some t) →
  run tr s = Some s' →
  n_queued (tid t) s' = 0%nat ∧ n_destroyed (tid t) s' = 0%nat ∧
  (n_held (tid t) s' + n_ran (tid t) s' = 1)%nat ∧
  (quiescent s' →
   n_ran (tid t) s' = 1%nat ∧ is_Some (future_get (tid t) s')).
Proof.
  intros Hr Hk Hw Hrun.
  pose proof (n_held_pos _ _ _ _ Hk Hw) as Hheld.
  assert (Inv s' ∧ (1 ≤ n_held (tid t) s' + n_ran (tid t) s')%nat)
    as [Hinv Hc].
  { eapply (run_inv (λ s, Inv s ∧ (1 ≤ n_held (tid t) s + n_ran (tid t) s)%nat));
      [|split; [by apply Inv_reachable|lia]|done].
    intros l s1 s2 [Hi H1] Hs. split; [by eapply Inv_step|].
    destruct Hi as (_ & Hids & _). by eapply claimed_any_step. }
  pose proof Hinv as (Hmx & Hids & _).
  destruct (Hids (tid t)) as [Hocc _]. unfold occ in Hocc.
  split; [lia|]. split; [lia|]. split; [lia|].
  intros Hq.
  assert (n_held (tid t) s' = 0%nat) as H0.
  { apply n_held_rest. intros k0 w0 Hk0. by eapply quiescent_workers. }
  split; [lia|]. apply ran_ready. lia.
Qed.

Lemma claimed_task_runs_witness :
  ∃ s', run (L_call (Stop false) :: abort_trace) failing_state = Some s' ∧
        n_ran 0 s' = 1%nat ∧ n_destroyed 0 s' = 0%nat.
Proof.
  destruct (run (L_call (Stop false) :: abort_trace) failing_state)
    as [s'|] eqn:E; [|by vm_compute in E].
  exists s'. split; [reflexivity|].
  destruct (claimed_task_runs failing_state 0
              (Worker 0 false false (W_exec (Task 0 always_fails)))
              (Task 0 always_fails) _ s' failing_state_reachable eq_refl
              (or_introl eq_refl) E) as (_ & Hd & Hsum & _).
  split; [|exact Hd].
  vm_compute in E. injection E as <-. reflexivity.
Defined.

Lemma chan_step l s s' :
  step l s = Some s' → ∃ new, chan s' = chan s ++ new.
Proof.
  intros H.
  destruct l as [k j|k j|j|f|c]; step_inv H; proj; grow_fields;
    try (by exists []; rewrite app_nil_r); eauto.
Qed.

Lemma future_step l s s' x r :
  step l s = Some s' → future_get x s = Some r → future_get x s' = Some r.
Proof.
  intros H Hf. unfold future_get in *.
  destruct (chan_step _ _ _ H) as [new ->].
  apply fmap_Some in Hf as ([i e] & Hf & ->).
  by erewrite list_find_app_l.
Qed.

(** X8: a result, once stored, stays: what the future of a task reports
    is never changed by anything the pool does later. *)
Theorem future_stable tr s s' x r :
  run tr s = Some s' → future_get x s = Some r → future_get x s' = Some r.
Proof.
  revert s. induction tr as [|l tr IH]; intros s; simpl.
  - by intros [= <-].
  - destruct (step l s) as [s1|] eqn:E; [|done]. simpl. intros Hr Hf.
    eapply IH; [done|]. by eapply future_step.
Qed.

Lemma future_stable_witness :
  ∃ s', run [L_push always_fails; L_pusher 1 0; L_pusher 1 0]%nat rest_state
        = Some s' ∧ future_get 0 s' = Some (Value 0).
Proof.
  destruct (run [L_push always_fails; L_pusher 1 0; L_pusher 1 0]%nat
              rest_state) as [s'|] eqn:E; [|by vm_compute in E].
  exists s'. split; [reflexivity|].
  exact (future_stable _ rest_state s' 0%nat (Value 0) E eq_refl).
Defined.

(** ** clear_queue *)

Lemma clear_step j s s' :
  mgr s = S_clear1 ∨ mgr s = S_clear2 →
  mgr_step j s = Some s' →
  match q s with
  | [] => s' = with_mgr (after_clear (mgr s))
                 (match mgr s with
                  | S_clear1 => s
                  | _ => with_flags [] (with_threads [] s)
                  end)
  | t :: r =>
      q s' = r ∧ destroyed s' = destroyed s ++ [tid t] ∧ mgr s' = mgr s ∧
      chan s' = chan s ∧ workers s' = workers s ∧
      (n_qwait s' + Nat.min (n_qwait s) 1 = n_qwait s)%nat ∧
      (n_qwoken s' = n_qwoken s + Nat.min (n_qwait s) 1)%nat
  end.
Proof.
  intros Hm H. unfold mgr_step, Queue_pop in H.
  assert (∀ ps, notify_one_q j (pushers s) = Some ps →
            (sum_list_with qwaiting ps + Nat.min (n_qwait s) 1 = n_qwait s)%nat ∧
            (sum_list_with qwoken ps = n_qwoken s + Nat.min (n_qwait s) 1)%nat)
    as Hcount.
  { intros ps [[-> Hno]|(t' & Hj & ->)]%notify_one_q_spec;
      unfold n_qwait, n_qwoken.
    - rewrite (qwaiting_none _ Hno). simpl. lia.
    - pose proof (sum_list_with_insert qwaiting _ _ _ (P_qwoken t') Hj) as E1.
      pose proof (sum_list_with_insert qwoken _ _ _ (P_qwoken t') Hj) as E2.
      change (qwaiting (P_qwait t')) with 1%nat in E1.
      change (qwaiting (P_qwoken t')) with 0%nat in E1.
      change (qwoken (P_qwait t')) with 0%nat in E2.
      change (qwoken (P_qwoken t')) with 1%nat in E2. lia. }
  destruct Hm as [Hm|Hm]; rewrite Hm in *; simpl.
  - destruct (q s) as [|t r]; simpl in H; [by simplify_eq|].
    destruct (notify_one_q j (pushers s)) as [ps|] eqn:Hn; simpl in H; [|done].
    simplify_eq. destruct (Hcount _ eq_refl). simpl. done.
  - destruct (q s) as [|t r]; simpl in H; [by simplify_eq|].
    destruct (notify_one_q j (pushers s)) as [ps|] eqn:Hn; simpl in H; [|done].
    simplify_eq. destruct (Hcount _ eq_refl). simpl. done.
Qed.

(** X9: [clear_queue] run without another thread in between: on a queue of
    [n] tasks it calls [pop] [n + 1] times, deletes the tasks in queue
    order, invokes none of them, leaves the workers alone, and wakes as
    many blocked calls of push as there are, up to [n]. *)
Theorem clear_queue_uninterrupted s :
  mgr s = S_clear1 ∨ mgr s = S_clear2 →
  (∃ js, length js = S (length (q s)) ∧ is_Some (run (L_mgr <$> js) s)) ∧
  ∀ js s', length js = S (length (q s)) → run (L_mgr <$> js) s = Some s' →
    q s' = [] ∧ destroyed s' = destroyed s ++ (tid <$> q s) ∧
    chan s' = chan s ∧ workers s' = workers s ∧
    mgr s' = after_clear (mgr s) ∧
    (n_qwait s' + Nat.min (n_qwait s) (length (q s)) = n_qwait s)%nat ∧
    (n_qwoken s' = n_qwoken s + Nat.min (n_qwait s) (length (q s)))%nat.
Proof.
  intros Hm. split.
  - remember (q s) as qs eqn:Hq. revert s Hm Hq.
    induction qs as [|t r IH]; intros s Hm Hq.
    + exists [0%nat]. split; [done|]. simpl.
      unfold mgr_step, Queue_pop. rewrite <-Hq.
      destruct Hm as [-> | ->]; simpl; eauto.
    + destruct (notify_one_q_enabled (pushers s)) as (j & ps & Hj).
      assert (∃ s1, mgr_step j s = Some s1 ∧ q s1 = r ∧ mgr s1 = mgr s)
        as (s1 & Hs1 & Hq1 & Hm1).
      { unfold mgr_step, Queue_pop. rewrite <-Hq, Hj.
        destruct Hm as [Hm|Hm]; rewrite Hm; simpl; eauto. }
      destruct (IH s1) as (js & Hlen & Hrun); [congruence|done|].
      exists (j :: js). split; [simpl; lia|]. simpl. by rewrite Hs1.
  - intros js. revert s Hm.
    induction js as [|j js IH]; intros s Hm s' Hlen Hr; [done|].
    simpl in Hr. destruct (mgr_step j s) as [s1|] eqn:Hs1; [|done].
    simpl in Hr. pose proof (clear_step _ _ _ Hm Hs1) as Hc.
    destruct (q s) as [|t r] eqn:Hq.
    + destruct js; [|done]. simpl in Hr. simplify_eq.
      rewrite Nat.min_0_r, !Nat.add_0_r, app_nil_r.
      destruct Hm as [Hm|Hm]; rewrite Hm; simpl; by rewrite ?Hq.
    + destruct Hc as (Hq1 & Hd1 & Hm1 & Hc1 & Hw1 & Hn1 & Hk1).
      destruct (IH s1) with (s' := s') as (H1 & H2 & H3 & H4 & H5 & H6 & H7);
        [congruence|rewrite Hq1; simpl in Hlen; lia|done|].
      rewrite H2, H3, H4, H5, Hd1, Hq1, Hc1, Hw1, Hm1.
      split; [done|]. split; [by rewrite <-(assoc_L (++))|].
      repeat (split; [done|]). rewrite Hq1 in *. simpl. lia.
Qed.

Lemma clear_queue_uninterrupted_witness :
  ∃ s', run (L_mgr <$> [0; 0; 0]%nat) clearing_state = Some s' ∧
        q s' = [] ∧ destroyed s' = [0; 1]%nat ∧ mgr s' = S_notify.
Proof.
  destruct (run (L_mgr <$> [0; 0; 0]%nat) clearing_state) as [s'|] eqn:E;
    [|by vm_compute in E].
  exists s'. split; [reflexivity|].
  destruct (clear_queue_uninterrupted clearing_state (or_introl eq_refl))
    as [_ H].
  destruct (H [0; 0; 0]%nat s' eq_refl E) as (Hq & Hd & _ & _ & Hm & _).
  split; [exact Hq|]. split; [exact Hd|exact Hm].
Defined.

(** ** n_idle *)

(** X10: [n_idle()] is the number of threads between [++nWaiting] and
    [--nWaiting]: those evaluating the wait predicate, waiting, or woken and
    not yet past the decrement.  It lies between 0 and the number of threads
    ever started. *)
Theorem n_idle_counts s :
  reachable s →
  n_idle s = Z.of_nat (sum_list_with counted (workers s)) ∧
  0 ≤ n_idle s ≤ Z.of_nat (length (workers s)).
Proof.
  intros Hr. destruct (Inv_ext_reachable _ Hr) as [_ (Hi & _)].
  unfold n_idle. rewrite Hi. split; [done|]. split; [lia|].
  apply inj_le, counted_le.
Qed.

Lemma n_idle_counts_witness : n_idle racing_state = 1.
Proof. exact (proj1 (n_idle_counts racing_state racing_state_reachable)). Defined.

Lemma sum_list_with_members {A} (f : A → nat) (ws : list A) (ids : list nat) :
  NoDup ids → (∀ id, id ∈ ids → (id < length ws)%nat) →
  (∀ k w, ws !! k = Some w → f w = if decide (k ∈ ids) then 1%nat else 0%nat) →
  sum_list_with f ws = length ids.
Proof.
  revert ids. induction ws as [|w ws IH] using rev_ind; intros ids Hnd Hlt Hf.
  - destruct ids as [|id ids]; [done|].
    specialize (Hlt id (list_elem_of_here _ _)). simpl in Hlt. lia.
  - rewrite sum_list_with_app. simpl.
    pose proof (Hf (length ws) w) as Hw.
    rewrite lookup_app_r, Nat.sub_diag in Hw by lia. specialize (Hw eq_refl).
    case_decide as Hin.
    + apply elem_of_Permutation in Hin as [ids' Hp].
      rewrite Hp in Hnd. apply NoDup_cons in Hnd as [Hni Hnd'].
      rewrite Hp. simpl. rewrite Hw, (IH ids'); [lia|done| |].
      * intros id Hid. assert (id ∈ ids) as Hid' by (rewrite Hp; by right).
        specialize (Hlt _ Hid'). rewrite length_app in Hlt. simpl in Hlt.
        assert (id ≠ length ws) by (intros ->; done). lia.
      * intros k w0 Hk. rewrite (Hf k w0).
        2:{ rewrite lookup_app_l; [done|by eapply lookup_lt_Some]. }
        apply lookup_lt_Some in Hk.
        destruct (decide (k ∈ ids)) as [Hi|Hi], (decide (k ∈ ids')) as [Hi'|Hi'];
          try done.
        -- rewrite Hp in Hi. apply elem_of_cons in Hi as [->|?]; [lia|done].
        -- exfalso. apply Hi. rewrite Hp. by right.
    + rewrite Hw, (IH ids); [lia|done| |].
      * intros id Hid. specialize (Hlt _ Hid). rewrite length_app in Hlt.
        simpl in Hlt. assert (id ≠ length ws) by (intros ->; done). lia.
      * intros k w0 Hk. apply Hf. rewrite lookup_app_l; [done|].
        by eapply lookup_lt_Some.
Qed.

(** X11: on a pool that is neither stopping nor draining, at rest,
    [n_idle()] equals [size()]: every thread of the pool waits, and no
    detached thread is counted any more. *)
Theorem n_idle_at_rest s :
  reachable s → quiescent s → isStop s = false → isDone s = false →
  n_idle s = size s.
Proof.
  intros Hr Hq Hs Hd.
  destruct (Inv_ext_reachable _ Hr) as [Hinv Hext].
  pose proof Hext as (Hi & _).
  pose proof Hinv as (Hmx & _ & (_ & Hnd & _ & _ & Hslots) & Hex & _).
  pose proof (quiescent_mgr _ Hinv Hq) as Hm.
  unfold n_idle, size. rewrite Hi. f_equal.
  apply sum_list_with_members; [done| |].
  - intros id [j Hj]%list_elem_of_lookup.
    destruct (Hslots _ _ Hj) as (w & Hw & _). by eapply lookup_lt_Some.
  - intros k w Hk. unfold counted. case_decide as Hin.
    + apply list_elem_of_lookup in Hin as [j Hj].
      destruct (Hslots _ _ Hj) as (w' & Hw' & Hatt & _).
      assert (w' = w) as -> by congruence.
      unfold att_ok, live in Hatt. rewrite Hm in Hatt.
      apply lookup_lt_Some in Hj. case_decide; [|lia].
      destruct Hatt as [_ Hfl]. specialize (Hfl Hs).
      destruct (quiescent_workers _ _ _ Hmx Hq Hk) as [->|He]; [done|].
      destruct (Hex _ _ Hk) as [?|?]; [by right|congruence|congruence].
    + by rewrite (gone_at_rest s k w).
Qed.

Lemma n_idle_at_rest_witness : n_idle rest_state = 1.
Proof.
  exact (n_idle_at_rest rest_state rest_state_reachable rest_state_quiescent
           eq_refl eq_refl).
Defined.

(** ** The thread vector *)

(** X12: [get_thread(i)] is inside the vector exactly for
    [0 <= i < size()].  The thread in slot [i] was started with index [i],
    it is in no other slot, and between calls of [resize] and [stop] it is
    attached; on a pool that is not stopping its flag is down, and unless
    the pool drains it has not returned. *)
Theorem get_thread_slot s i :
  reachable s →
  (is_Some (get_thread i s) ↔ 0 ≤ i < size s) ∧
  ∀ id, get_thread i s = Some id →
    (∀ i', get_thread i' s = Some id → i' = i) ∧
    ∃ w, workers s !! id = Some w ∧ widx w = i ∧
      (mgr s = M_idle →
       wdet w = false ∧
       (isStop s = false →
        wflag w = false ∧ (isDone s = false → wat w ≠ W_exit))).
Proof.
  intros Hr.
  destruct (Inv_ext_reachable _ Hr)
    as [(_ & _ & (_ & Hnd & _ & _ & Hslots) & Hex & _) (_ & _ & Hidx & _)].
  unfold get_thread, size. split.
  - destruct (Z.ltb_spec i 0).
    + split; [by intros [? ?]|lia].
    + rewrite lookup_lt_is_Some. lia.
  - intros id Hi. destruct (Z.ltb_spec i 0); [done|]. split.
    + intros i' Hi'. destruct (Z.ltb_spec i' 0); [done|].
      pose proof (NoDup_lookup _ _ _ _ Hnd Hi Hi'). lia.
    + destruct (Hidx _ _ Hi) as (w & Hw & Hx).
      exists w. split; [done|]. split; [lia|]. intros Hm.
      destruct (Hslots _ _ Hi) as (w' & Hw' & Hatt & _).
      assert (w' = w) as -> by congruence.
      unfold att_ok, live in Hatt. rewrite Hm in Hatt.
      apply lookup_lt_Some in Hi. case_decide; [|lia].
      destruct Hatt as [Hdet Hfl]. split; [done|]. intros Hs.
      split; [auto|]. intros Hd He.
      destruct (Hex _ _ Hw) as [?|?]; [by right|congruence|].
      rewrite Hfl in *; done.
Qed.

Lemma get_thread_slot_witness :
  ∃ w, workers pool3 !! 1%nat = Some w ∧ widx w = 1 ∧ wflag w = false.
Proof.
  destruct (get_thread_slot pool3 1 pool3_reachable) as [_ H].
  destruct (H 1%nat eq_refl) as (_ & w & Hw & Hx & Hrest).
  exists w. split; [exact Hw|]. split; [exact Hx|].
  exact (proj1 (proj2 (Hrest eq_refl) eq_refl)).
Defined.

(** X13: the index passed to a task is not unique among the threads that
    run: when the thread in the last slot is running a task, [resize] down
    by one and up again leaves that thread running its task, detached, with
    its index, beside a new thread started with the same index. *)
Theorem index_reused s n id w t :
  reachable s → mgr s = M_idle → isStop s = false → isDone s = false →
  mutex s = None → 0 ≤ n → size s = n + 1 →
  threads s !! Z.to_nat n = Some id → workers s !! id = Some w →
  wat w = W_exec t →
  ∃ s', run (shrink_grow n) s = Some s' ∧ size s' = n + 1 ∧
    workers s' !! id = Some (Worker n true true (W_exec t)) ∧
    workers s' !! length (workers s) = Some (Worker n false false W_pop) ∧
    threads s' !! Z.to_nat n = Some (length (workers s)) ∧
    id ≠ length (workers s).
Proof.
  intros Hr Hm Hs Hd Hmx Hn Hsz Ht Hw Hat.
  destruct (Inv_ext_reachable _ Hr)
    as [(_ & _ & (Hf & _ & _ & _ & Hslots) & _) (_ & _ & Hidx & _)].
  destruct (Hidx _ _ Ht) as (w0 & Hw0 & Hx).
  assert (w0 = w) as -> by congruence.
  assert (id < length (workers s))%nat as Hlt by (by eapply lookup_lt_Some).
  assert (length (threads s) = S (Z.to_nat n)) as Hlen
    by (unfold size in Hsz; lia).
  set (ws := alter detach id (alter raise_flag id (workers s))).
  set (s5 := with_mgr M_idle
               (with_flags (take (Z.to_nat n) (flags s))
                  (with_threads (take (Z.to_nat n) (threads s))
                     (with_workers (notify_all ws) s)))).
  assert (enter (Resize n) s = Some (with_mgr (R_start n) s)) as E1.
  { unfold enter. rewrite Hm. by destruct (Z.leb_spec 0 n); [|lia]. }
  assert (mgr_step 0 (with_mgr (R_start n) s) =
          Some (with_mgr (R_shrink n n) s)) as E2.
  { unfold mgr_step, size. proj. rewrite Hs, Hd. simpl.
    destruct (Z.leb_spec (Z.of_nat (length (threads s))) n); [lia|].
    replace (Z.of_nat (length (threads s)) - 1) with n by lia. reflexivity. }
  assert (mgr_step 0 (with_mgr (R_shrink n n) s) =
          Some (with_mgr (R_shrink (n - 1) n) (with_workers ws s))) as E3.
  { unfold mgr_step. proj.
    destruct (Z.leb_spec n n); [|lia]. destruct (Z.ltb_spec n 0); [lia|].
    rewrite Hf, Ht. done. }
  assert (mgr_step 0 (with_mgr (R_shrink (n - 1) n) (with_workers ws s)) =
          Some (with_mgr (R_notify n) (with_workers ws s))) as E4.
  { unfold mgr_step. proj. by destruct (Z.leb_spec n (n - 1)); [lia|]. }
  assert (mgr_step 0 (with_mgr (R_notify n) (with_workers ws s)) = Some s5)
    as E5.
  { unfold mgr_step. proj. by rewrite Hmx. }
  assert (enter (Resize (n + 1)) s5 = Some (with_mgr (R_start (n + 1)) s5))
    as E6.
  { unfold enter. simpl. by destruct (Z.leb_spec 0 (n + 1)); [|lia]. }
  assert (mgr_step 0 (with_mgr (R_start (n + 1)) s5) =
          Some (with_mgr M_idle (set_thread n (with_mgr (R_start (n + 1)) s5))))
    as E7.
  { unfold mgr_step, size, s5. proj. rewrite Hs, Hd. simpl.
    rewrite length_take, Hlen, Nat.min_l by lia.
    destruct (Z.leb_spec (Z.of_nat (Z.to_nat n)) (n + 1)); [|lia].
    replace (Z.to_nat (n + 1 - Z.of_nat (Z.to_nat n))) with 1%nat by lia.
    simpl. by rewrite Z2Nat.id by lia. }
  eexists. split.
  { unfold shrink_grow. simpl. rewrite E1. simpl. rewrite E2. simpl.
    rewrite E3. simpl. rewrite E4. simpl. rewrite E5. simpl. rewrite E6. simpl.
    rewrite E7. done. }
  unfold size, s5. proj. rewrite !length_app, length_take, Hlen. simpl.
  split; [lia|].
  unfold notify_all, ws. rewrite length_fmap, !length_alter.
  split; [|split; [|split; [|lia]]].
  - rewrite lookup_app_l
      by (by rewrite length_fmap, !length_alter).
    rewrite list_lookup_fmap, !list_lookup_alter, !decide_True by done.
    rewrite Hw. simpl. unfold wake, is_wait. simpl. rewrite Hat. simpl.
    unfold at_, detach, raise_flag. simpl. by rewrite Hx, Hat, Z2Nat.id by lia.
  - rewrite lookup_app_r by (by rewrite length_fmap, !length_alter).
    rewrite length_fmap, !length_alter, Nat.sub_diag. done.
  - rewrite lookup_app_r by (rewrite length_take; lia).
    rewrite length_take, Hlen, Nat.min_l, Nat.sub_diag by lia. done.
Qed.

Lemma index_reused_witness :
  ∃ s', run (shrink_grow 0) failing_state = Some s' ∧
    workers s' !! 0%nat =
      Some (Worker 0 true true (W_exec (Task 0 always_fails))) ∧
    workers s' !! 1%nat = Some (Worker 0 false false W_pop).
Proof.
  destruct (index_reused failing_state 0 0%nat
              (Worker 0 false false (W_exec (Task 0 always_fails)))
              (Task 0 always_fails) failing_state_reachable)
    as (s' & Hr & _ & H1 & H2 & _); try reflexivity.
  exists s'. split; [exact Hr|]. split; [exact H1|exact H2].
Defined.

Lemma run_replicate_S n l s :
  run (replicate (S n) l) s = s1 ← step l s; run (replicate n l) s1.
Proof. done. Qed.

Lemma shrink_below_zero n c : ∀ s i,
  n < 0 → flags s = threads s → mgr s = R_shrink i n →
  i = Z.of_nat c - 1 → i < size s →
  (∀ j id, threads s !! j = Some id → is_Some (workers s !! id)) →
  ∃ s', run (replicate c (L_mgr 0)) s = Some s' ∧
    mgr s' = R_shrink (-1) n ∧
    (∀ j id w, threads s !! j = Some id → workers s !! id = Some w →
       ∃ w', workers s' !! id = Some w' ∧
         (wflag w = true ∧ wdet w = true ∨ Z.of_nat j ≤ i →
          wflag w' = true ∧ wdet w' = true)).
Proof.
  induction c as [|c IH]; intros s i Hn Hf Hm Hi Hlt Hws.
  - exists s. split; [done|]. split; [rewrite Hm; f_equal; lia|].
    intros j id w Hj Hw. exists w. split; [done|]. intros [?|?]; [done|lia].
  - assert (0 ≤ i) as Hi0 by lia.
    destruct (lookup_lt_is_Some_2 (threads s) (Z.to_nat i)) as [t Ht];
      [unfold size in Hlt; lia|].
    assert (mgr_step 0 s =
            Some (with_mgr (R_shrink (i - 1) n)
                    (with_workers
                       (alter detach t (alter raise_flag t (workers s))) s)))
      as Hs.
    { unfold mgr_step. rewrite Hm.
      destruct (Z.leb_spec n i); [|lia]. destruct (Z.ltb_spec i 0); [lia|].
      rewrite Hf, Ht. done. }
    set (s1 := with_mgr _ _) in Hs.
    destruct (IH s1 (i - 1)) as (s' & Hr & Hm' & Hall); try done.
    { lia. } { subst s1. unfold size in *. simpl. lia. }
    { intros j id Hj. simpl in *. destruct (Hws _ _ Hj) as [w Hw].
      rewrite !list_lookup_alter. repeat case_decide; subst;
        rewrite ?Hw; simpl; eauto. }
    exists s'. split; [by rewrite run_replicate_S; simpl; rewrite Hs|].
    split; [done|]. intros j id w Hj Hw.
    assert (∃ w1, workers s1 !! id = Some w1 ∧
              (wflag w = true ∧ wdet w = true ∨ Z.of_nat j = i →
               wflag w1 = true ∧ wdet w1 = true) ∧
              (id ≠ t → w1 = w)) as (w1 & Hw1 & Hfl1 & _).
    { simpl. rewrite !list_lookup_alter.
      destruct (decide (t = id)) as [->|Hne].
      - rewrite !decide_True by done. rewrite Hw. simpl.
        eexists. split; [done|]. split; [done|done].
      - rewrite ?decide_False by done.
        rewrite Hw. eexists. split; [done|]. split; [|done].
        intros [?|Hji]; [done|]. exfalso. apply Hne.
        assert (Z.to_nat i = j) as Hij by lia. rewrite Hij in Ht. congruence. }
    destruct (Hall j id w1 Hj Hw1) as (w' & Hw' & Hfl').
    exists w'. split; [done|]. intros [?|Hle].
    + apply Hfl'. left. apply Hfl1. by left.
    + destruct (decide (Z.of_nat j = i)) as [Hji|Hji].
      * apply Hfl'. left. apply Hfl1. by right.
      * apply Hfl'. right. lia.
Qed.

(** X14: [resize(n)] with [n < 0] (against the comment "nThreads must be
    >= 0") on a running pool: the shrinking loop sets the flag of every
    thread and detaches it, and then indexes [flags[-1]]. *)
Theorem resize_negative s n :
  reachable s → mgr s = M_idle → isStop s = false → isDone s = false →
  n < 0 →
  ∃ s', run (replicate (S (length (threads s))) (L_mgr 0))
          (with_mgr (R_start n) s) = Some s' ∧
    mgr s' = R_shrink (-1) n ∧
    (∀ j id, threads s !! j = Some id →
       ∃ w, workers s' !! id = Some w ∧ wflag w = true ∧ wdet w = true) ∧
    ∀ j, mgr_step j s' = None.
Proof.
  intros Hr Hm Hs Hd Hn.
  destruct (Inv_reachable _ Hr) as (_ & _ & (Hf & _ & _ & _ & Hslots) & _).
  set (s1 := with_mgr (R_shrink (size s - 1) n) s).
  assert (mgr_step 0 (with_mgr (R_start n) s) = Some s1) as H1.
  { unfold mgr_step. simpl. rewrite Hs, Hd. simpl.
    change (size (with_mgr (R_start n) s)) with (size s).
    destruct (Z.leb_spec (size s) n); [unfold size in *; lia|done]. }
  destruct (shrink_below_zero n (length (threads s)) s1 (size s - 1))
    as (s' & Hrun & Hm' & Hall); try done.
  { subst s1. unfold size. simpl. lia. }
  { intros j id Hj. destruct (Hslots _ _ Hj) as (w & Hw & _). eauto. }
  exists s'. split; [by rewrite run_replicate_S; simpl; rewrite H1|].
  split; [done|]. split.
  - intros j id Hj. destruct (Hslots _ _ Hj) as (w & Hw & _).
    destruct (Hall j id w Hj Hw) as (w' & Hw' & Hfl).
    exists w'. split; [done|]. apply Hfl. right.
    apply lookup_lt_Some in Hj. unfold size. lia.
  - intros j. unfold mgr_step. rewrite Hm'.
    destruct (Z.leb_spec n (-1)); [done|lia].
Qed.

Lemma resize_negative_witness :
  ∃ s', run (replicate 4 (L_mgr 0)) (with_mgr (R_start (-1)) pool3) = Some s' ∧
        (wflag <$> workers s') = [true; true; true] ∧
        mgr_step 0 s' = None.
Proof.
  destruct (resize_negative pool3 (-1) pool3_reachable)
    as (s' & Hr & _ & _ & Hn); [done|done|done|lia|].
  exists s'. split; [exact Hr|]. split; [|apply Hn].
  vm_compute in Hr. injection Hr as <-. reflexivity.
Defined.

(** ** detail::ValueTracker *)

Lemma lines_all (l : list float) n :
  n = length l → mapM (λ i, l !! i) (seq 0 n) = Some l.
Proof.
  intros ->. apply mapM_Some, Forall2_same_length_lookup.
  split; [by rewrite length_seq|].
  intros i x y [-> _]%lookup_seq Hy. done.
Qed.

Lemma updateValue_same n now1 now2 v :
  length (valueTimes v) = 64%nat → n = currentValue v →
  updateValue n now1 now2 v =
  if PrimFloat.ltb 10%float (seconds (now2 - previousPrintTime v)) then
    Some (Tracker (previousValue v) (currentValue v) (previousTime v) now2
            0%float (valueTimes v), Some (valueTimes v, totalTime v))
  else Some (v, None).
Proof.
  intros Hl ->. unfold updateValue. rewrite Z.eqb_refl.
  cbn [mbind option_bind].
  destruct (PrimFloat.ltb _ _); [|done].
  rewrite lines_all by done. cbn [mbind option_bind].
  by rewrite resize_all_alt by done.
Qed.

Lemma updateValue_change n now1 now2 v :
  length (valueTimes v) = 64%nat → n ≠ currentValue v →
  updateValue n now1 now2 v =
  if (0 <=? previousValue v) && (previousValue v <? 64) then
    let i := Z.to_nat (previousValue v) in
    let dt := seconds (now1 - previousTime v) in
    let vt := alter (λ x, PrimFloat.add x dt) i (valueTimes v) in
    let tot := PrimFloat.add (totalTime v) dt in
    if PrimFloat.ltb 10%float (seconds (now2 - previousPrintTime v)) then
      Some (Tracker (currentValue v) n now1 now2 0%float vt, Some (vt, tot))
    else
      Some (Tracker (currentValue v) n now1 (previousPrintTime v) tot vt, None)
  else None.
Proof.
  intros Hl Hn. unfold updateValue.
  rewrite (proj2 (Z.eqb_neq _ _) Hn).
  destruct (Z.ltb_spec (previousValue v) 0) as [Hlt|Hge].
  { by rewrite (proj2 (Z.leb_gt _ _) Hlt). }
  rewrite (proj2 (Z.leb_le _ _) Hge). cbn [andb].
  destruct (Z.ltb_spec (previousValue v) 64) as [Hlt|Hge'].
  - destruct (lookup_lt_is_Some_2 (valueTimes v) (Z.to_nat (previousValue v)))
      as [old Hold]; [lia|].
    rewrite Hold. cbn [mbind option_bind valueTimes previousPrintTime].
    assert (<[Z.to_nat (previousValue v) :=
               PrimFloat.add old (seconds (now1 - previousTime v))]>
              (valueTimes v) =
            alter (λ x, PrimFloat.add x (seconds (now1 - previousTime v)))
              (Z.to_nat (previousValue v)) (valueTimes v)) as ->.
    { rewrite list_insert_alter. apply list_alter_ext; [|done].
      intros x Hx. congruence. }
    destruct (PrimFloat.ltb _ _); [|done].
    rewrite lines_all by (by rewrite length_alter).
    cbn [mbind option_bind].
    by rewrite resize_all_alt by (by rewrite length_alter).
  - by rewrite (lookup_ge_None_2 (valueTimes v)) by lia.
Qed.

(** With the previous value inside the vector every call succeeds. *)
Lemma updateValue_some n now1 now2 v :
  length (valueTimes v) = 64%nat → 0 ≤ previousValue v < 64 →
  ∃ v' o, updateValue n now1 now2 v = Some (v', o) ∧
    length (valueTimes v') = 64%nat ∧ currentValue v' = n ∧
    previousValue v' =
      if n =? currentValue v then previousValue v else currentValue v.
Proof.
  intros Hl Hp. destruct (decide (n = currentValue v)) as [He|Hn].
  - rewrite updateValue_same by done. rewrite (proj2 (Z.eqb_eq _ _) He).
    destruct (PrimFloat.ltb _ _); eauto 10.
  - rewrite updateValue_change by done. rewrite (proj2 (Z.eqb_neq _ _) Hn).
    destruct (Z.leb_spec 0 (previousValue v)); [|lia].
    destruct (Z.ltb_spec (previousValue v) 64); [|lia]. simpl.
    destruct (PrimFloat.ltb _ _); do 2 eexists; (split; [done|]); simpl;
      by rewrite length_alter.
Qed.

(** X15: [updateValue] indexes [valueTimes] with the previous value, and
    only when the value changes: on a tracker with its 64 entries the call
    is outside the vector exactly when the new value differs from the
    current one and the previous value is not in [0, 64).  A call that
    succeeds keeps the 64 entries, makes the new value current, and the
    replaced one previous. *)
Theorem updateValue_bounds newValue now1 now2 v :
  length (valueTimes v) = 64%nat →
  (updateValue newValue now1 now2 v = None ↔
   newValue ≠ currentValue v ∧ ¬ (0 ≤ previousValue v < 64)) ∧
  ∀ v' o, updateValue newValue now1 now2 v = Some (v', o) →
    length (valueTimes v') = 64%nat ∧ currentValue v' = newValue ∧
    previousValue v' =
      if newValue =? currentValue v then previousValue v else currentValue v.
Proof.
  intros Hl. destruct (decide (newValue = currentValue v)) as [He|Hn].
  - rewrite updateValue_same by done. rewrite (proj2 (Z.eqb_eq _ _) He).
    destruct (PrimFloat.ltb _ _); (split; [split; [done|tauto]|]);
      intros v' o [= <- <-]; done.
  - rewrite updateValue_change by done. rewrite (proj2 (Z.eqb_neq _ _) Hn).
    destruct (Z.leb_spec 0 (previousValue v)),
             (Z.ltb_spec (previousValue v) 64); simpl;
      try (split; [split; [intros _; split; [done|lia]|done]|done]).
    destruct (PrimFloat.ltb _ _); (split; [split; [done|intros [_ ?]; lia]|]);
      intros v' o [= <- <-]; simpl; by rewrite length_alter.
Qed.

Lemma updateValue_bounds_witness :
  updateValue 1 0 0 (ValueTracker_new 0 0) ≠ None.
Proof.
  intros H.
  destruct (updateValue_bounds 1 0 0 (ValueTracker_new 0 0) eq_refl) as [Hn _].
  destruct (proj1 Hn H) as [_ Hx]. apply Hx. simpl. lia.
Defined.

(** X16: the time spent with a value is credited to the value before it.
    When the value becomes [a] at [t1] and then [b] at [t2], the second
    call adds [t2 - t1], the time spent with [a], to the entry of the value
    that was current before [a], and to no other entry. *)
Theorem updateValue_credits a b t1 t1' t2 t2' v v1 o1 v2 o2 :
  length (valueTimes v) = 64%nat →
  a ≠ currentValue v → b ≠ a →
  updateValue a t1 t1' v = Some (v1, o1) →
  updateValue b t2 t2' v1 = Some (v2, o2) →
  valueTimes v2 =
  alter (λ x, PrimFloat.add x (seconds (t2 - t1)))
    (Z.to_nat (currentValue v)) (valueTimes v1) ∧
  0 ≤ currentValue v < 64.
Proof.
  intros Hl Ha Hb H1 H2.
  rewrite updateValue_change in H1 by done.
  destruct ((0 <=? previousValue v) && (previousValue v <? 64)); [|done].
  assert (length (valueTimes v1) = 64%nat ∧ currentValue v1 = a ∧
          previousValue v1 = currentValue v ∧ previousTime v1 = t1)
    as (Hl1 & Hc1 & Hp1 & Ht1).
  { cbv zeta in H1. destruct (PrimFloat.ltb _ _); simplify_eq; simpl;
      by rewrite length_alter. }
  rewrite updateValue_change in H2 by (done || congruence).
  rewrite Hp1, Ht1 in H2.
  destruct (Z.leb_spec 0 (currentValue v)), (Z.ltb_spec (currentValue v) 64);
    simpl in H2; try done.
  split; [|lia]. cbv zeta in H2.
  destruct (PrimFloat.ltb 10 (seconds (t2' - previousPrintTime v1)));
    simplify_eq; reflexivity.
Qed.

Lemma updateValue_credits_witness :
  valueTimes tracker5 !! 0%nat = Some 4%float ∧
  valueTimes tracker5 !! 3%nat = Some 0%float ∧
  valueTimes tracker3 !! 0%nat = Some 2.5%float.
Proof.
  destruct (updateValue_credits 3 5 2500000000 2500000000 4000000000
              4000000000 (ValueTracker_new 0 0) tracker3 None tracker5 None)
    as [H _]; [reflexivity|done|done|reflexivity|reflexivity|].
  rewrite H. repeat split; reflexivity.
Defined.

(** X17: a round of logging happens exactly when more than 10 seconds have
    passed since the last one; it prints the per-value times and the total,
    resets the total and the time of the last round, and keeps the
    per-value times as printed ([resize(64, 0)] on a vector of 64 entries
    changes nothing).  A call with the current value never touches the
    per-value times. *)
Theorem updateValue_report n t1 t2 v v' o :
  length (valueTimes v) = 64%nat →
  updateValue n t1 t2 v = Some (v', o) →
  (n = currentValue v → valueTimes v' = valueTimes v) ∧
  if PrimFloat.ltb 10%float (seconds (t2 - previousPrintTime v)) then
    (∃ total, o = Some (valueTimes v', total)) ∧
    totalTime v' = 0%float ∧ previousPrintTime v' = t2
  else o = None ∧ previousPrintTime v' = previousPrintTime v.
Proof.
  intros Hl H. destruct (decide (n = currentValue v)) as [He|Hn].
  - rewrite updateValue_same in H by done.
    destruct (PrimFloat.ltb _ _); simplify_eq; simpl; eauto.
  - rewrite updateValue_change in H by done. split; [done|].
    destruct ((0 <=? previousValue v) && (previousValue v <? 64)); [|done].
    cbv zeta in H.
    destruct (PrimFloat.ltb _ _); simplify_eq; simpl; eauto.
Qed.

Lemma updateValue_report_witness :
  ∃ v' total,
    updateValue 5 4000000000 11000000000 tracker3 =
      Some (v', Some (valueTimes v', total)) ∧
    totalTime v' = 0%float ∧ valueTimes v' !! 0%nat = Some 4%float.
Proof.
  destruct (updateValue 5 4000000000 11000000000 tracker3) as [[v' o]|] eqn:E;
    [|by vm_compute in E].
  destruct (updateValue_report 5 4000000000 11000000000 tracker3 v' o
              eq_refl E) as [_ H].
  change (PrimFloat.ltb 10 (seconds (11000000000 - previousPrintTime tracker3)))
    with true in H.
  destruct H as ((total & ->) & Ht & _).
  exists v', total. split; [reflexivity|]. split; [exact Ht|].
  vm_compute in E. injection E as <- _. reflexivity.
Defined.

(** ** The pool with its tracker *)

Lemma nWaiting_step l s s' :
  step l s = Some s' →
  nWaiting s' = default (nWaiting s) (tracked l s).
Proof.
  intros H. unfold tracked.
  destruct l as [k j|k j|j|f|c]; step_inv H; proj; grow_fields;
    rewrite ?Heqo; simpl;
    repeat match goal with H : wat _ = _ |- _ => rewrite H end; done.
Qed.

Lemma workers_grow l s s' :
  step l s = Some s' → (length (workers s) ≤ length (workers s'))%nat.
Proof.
  intros H.
  destruct l as [k j|k j|j|f|c]; step_inv H; proj; grow_fields; lk;
    unfold notify_all;
    rewrite ?length_alter, ?length_app, ?length_fmap, ?length_alter; lia.
Qed.

Lemma workers_grow_run tr s s' :
  run tr s = Some s' → (length (workers s) ≤ length (workers s'))%nat.
Proof.
  revert s. induction tr as [|l tr IH]; intros s; simpl.
  - intros [= <-]. lia.
  - destruct (step l s) as [s1|] eqn:E; [|done]. simpl. intros Hr.
    apply IH in Hr. apply workers_grow in E. lia.
Qed.

Lemma tracker_ok_step e s tk s' :
  idle_ok s → tracker_ok (s, tk) → step e.1 s = Some s' →
  (length (workers s') ≤ 63)%nat →
  ∃ tk', tstep e (s, tk) = Some (s', tk') ∧ tracker_ok (s', tk').
Proof.
  intros Hi (Hl & Hc & Hp) H Hb. simpl in *.
  pose proof (workers_grow _ _ _ H) as Hg.
  pose proof (nWaiting_step _ _ _ H) as Hn.
  unfold tstep. simpl. rewrite H. simpl.
  destruct (tracked e.1 s) as [n|] eqn:Et; simpl in Hn.
  - destruct (updateValue_some n e.2.1 e.2.2 tk Hl)
      as (tk' & o & -> & Hl' & Hc' & Hp'); [lia|].
    simpl. exists tk'. split; [done|].
    split; [done|]. split; [simpl; congruence|]. simpl. rewrite Hp'.
    destruct (n =? currentValue tk); [lia|].
    rewrite Hc, Hi. split; [lia|].
    pose proof (counted_le (workers s)). lia.
  - exists tk. split; [done|]. split; [done|]. split; [simpl; congruence|].
    simpl. lia.
Qed.

(** X18: as long as no more than 63 threads have been started, every call
    of [updateValue] the workers make stays inside [valueTimes]: the run of
    the pool with its tracker is defined whenever the run of the pool is,
    and the tracker's current value is [n_idle()]. *)
Theorem tracker_in_bounds s0 now1 now2 tr s' :
  constructed s0 → run (fst <$> tr) s0 = Some s' →
  (length (workers s') ≤ 63)%nat →
  ∃ tk', trun tr (s0, ValueTracker_new now1 now2) = Some (s', tk') ∧
         currentValue tk' = n_idle s'.
Proof.
  intros H0 Hr Hb.
  assert (tracker_ok (s0, ValueTracker_new now1 now2)) as Hok.
  { split; [done|]. split; simpl.
    - destruct (Inv_ext_constructed _ H0) as (Hi & _).
      destruct H0 as [->|[n Hn]]; [done|].
      destruct (Z.le_gt_cases 0 n) as [Hle|Hgt].
      + rewrite thread_pool_eq in Hn by done. simplify_eq. simpl.
        by destruct (grow_frame (Z.to_nat n) 0 (with_mgr (R_start n) init))
          as (_&_&_&_&->&_).
      + by rewrite thread_pool_neg in Hn by lia.
    - lia. }
  assert (reachable s0) as Hreach by (exists s0, []; done).
  revert Hok Hreach Hr. generalize (ValueTracker_new now1 now2).
  generalize s0. clear H0 s0.
  induction tr as [|e tr IH]; intros s tk Hok Hreach Hr; simpl in *.
  - simplify_eq. exists tk. split; [done|]. by destruct Hok as (_ & ? & _).
  - destruct (step e.1 s) as [s1|] eqn:E; [|done]. simpl in Hr.
    destruct (Inv_ext_reachable _ Hreach) as [_ (Hi & _)].
    destruct (tracker_ok_step e s tk s1 Hi Hok E) as (tk1 & Ht & Hok1).
    { apply workers_grow_run in Hr. lia. }
    rewrite Ht. simpl. apply IH; [done| |done].
    by eapply reachable_step.
Qed.

Lemma tracker_in_bounds_witness :
  ∃ s' tk, trun (at_time 0 (all_wait 1)) (pool1, ValueTracker_new 0 0)
           = Some (s', tk) ∧ currentValue tk = 1.
Proof.
  destruct (run (fst <$> at_time 0 (all_wait 1)) pool1) as [s'|] eqn:E;
    [|by vm_compute in E].
  destruct (tracker_in_bounds pool1 0 0 (at_time 0 (all_wait 1)) s')
    as (tk & Ht & Hc).
  - right. exists 1. reflexivity.
  - exact E.
  - vm_compute in E. injection E as <-. simpl. lia.
  - exists s', tk. split; [exact Ht|]. rewrite Hc.
    vm_compute in E. injection E as <-. reflexivity.
Defined.

(** X19: with 64 threads the tracker leaves its vector.  On a pool built by
    [thread_pool(64)] all threads go to wait ([n_idle()] is 64);
    [stop(true)], as the destructor calls it, wakes them; when the second
    thread leaves the wait, [updateValue] indexes [valueTimes[64]]. *)
Theorem tracker_out_of_bounds :
  thread_pool 64 = Some pool64 ∧
  (∃ s', run (all_wait 64 ++ destroy_idle) pool64 = Some s' ∧ n_idle s' = 62) ∧
  trun (at_time 0 (all_wait 64 ++ destroy_idle)) (pool64, ValueTracker_new 0 0)
  = None.
Proof.
  split; [vm_compute; reflexivity|]. split.
  - destruct (run (all_wait 64 ++ destroy_idle) pool64) as [s'|] eqn:E;
      [|by vm_compute in E].
    exists s'. split; [reflexivity|]. vm_compute in E.
    injection E as <-. reflexivity.
  - vm_compute. reflexivity.
Qed.
